(** * Battery lifetime utilities: a shallow embedding of [utils.py]

    The two classes of [utils.py] are static-method name spaces; they are
    embedded as the modules [BatteryDataLoader] and [StatisticalAnalyzer].

    - Python exceptions are explicit: a function returns a [result].
    - numpy [float64] and Python [float] values are binary64 numbers
      ([PrimFloat.float]), with IEEE infinities and NaN; the numeric
      arguments of the interval and of the test are floats (an [int]
      argument stands for the float it converts to).  [bayesian_update]
      only adds and subtracts, and is kept generic in its numbers: Python
      [int] is [Z], Python [float] is binary64.
    - The functions of scipy ([loadmat], [weibull_min.fit], [norm.ppf],
      [norm.cdf]) are parameters. *)

From Stdlib Require Import ZArith List String Ascii Bool Lia Floats DecimalString.
From Stdlib Require DecimalFacts DecimalPos DecimalZ.
Import ListNotations.

Local Open Scope Z_scope.

(* Decimal literals denote the nearest binary64 value, as in Python. *)
Set Warnings "-inexact-float".

(** ** Exceptions and results *)

(** The exceptions the code can meet.  [OtherError] stands for whatever an
    external reader raises on a record it cannot parse. *)
Inductive exn : Type :=
| FileNotFoundError
| KeyError (key : string)
| IndexError
| ZeroDivisionError
| OtherError (msg : string).

Inductive result (A : Type) : Type :=
| Ok (a : A)
| Raise (e : exn).

Arguments Ok {A} a.
Arguments Raise {A} e.

Definition bind {A B : Type} (r : result A) (k : A -> result B) : result B :=
  match r with
  | Ok a => k a
  | Raise e => Raise e
  end.

Notation "x <- r ;; k" := (bind r (fun x => k))
  (at level 61, r at next level, right associativity).

Definition exn_is_file_not_found (e : exn) : bool :=
  match e with
  | FileNotFoundError => true
  | _ => false
  end.

(** ** numpy helpers *)

(** [np.where(mask)[0]]: the positions at which a boolean vector holds. *)
Fixpoint np_where_from (i : nat) (mask : list bool) : list nat :=
  match mask with
  | [] => []
  | b :: mask' =>
      if b then i :: np_where_from (S i) mask'
      else np_where_from (S i) mask'
  end.

Definition np_where (mask : list bool) : list nat := np_where_from 0 mask.

(** [a < x] for a one-dimensional array [a] and a scalar [x]: the
    element-wise IEEE comparison (false on NaN). *)
Definition np_less (a : list float) (x : float) : list bool :=
  map (fun c => PrimFloat.ltb c x) a.

(** [a[0]] for a one-dimensional array. *)
Definition np_first (a : list float) : result float :=
  match a with
  | [] => Raise IndexError
  | x :: _ => Ok x
  end.

(** [np.zeros_like(a)] *)
Definition np_zeros_like (a : list float) : list float :=
  repeat 0%float (List.length a).

(** A variable of a [.mat] file as [loadmat] gives it: a two-dimensional
    array, kept as the list of its columns. *)
Definition ndarray2 : Type := list (list float).

(** [a[:, 0]]: the first column; numpy raises [IndexError] when axis 1 has
    size 0. *)
Definition column0 (a : ndarray2) : result (list float) :=
  match a with
  | [] => Raise IndexError
  | col :: _ => Ok col
  end.

(** ** Python helpers *)

(** A [dict] with string keys. *)
Definition dict (V : Type) : Type := list (string * V).

Fixpoint dict_find {V : Type} (d : dict V) (key : string) : option V :=
  match d with
  | [] => None
  | (k, v) :: d' => if String.eqb k key then Some v else dict_find d' key
  end.

(** [key in d] *)
Definition dict_contains {V : Type} (d : dict V) (key : string) : bool :=
  match dict_find d key with
  | Some _ => true
  | None => false
  end.

(** [d[key]] *)
Definition dict_getitem {V : Type} (d : dict V) (key : string) : result V :=
  match dict_find d key with
  | Some v => Ok v
  | None => Raise (KeyError key)
  end.

(** [range(start, stop)] *)
Definition py_range (start stop : Z) : list Z :=
  map (fun k => start + Z.of_nat k) (seq 0 (Z.to_nat (stop - start))).

(** [str(i)] for an [int]. *)
Definition py_str (i : Z) : string := NilZero.string_of_int (Z.to_int i).

Fixpoint zeros (n : nat) : string :=
  match n with
  | O => EmptyString
  | S n' => String "0" (zeros n')
  end.

(** [s.zfill(width)]: zeros are put on the left, after a leading sign. *)
Definition zfill (s : string) (width : nat) : string :=
  let fill := zeros (width - String.length s) in
  match s with
  | String c s' =>
      if (Ascii.eqb c "+" || Ascii.eqb c "-")%bool
      then String c (fill ++ s')
      else fill ++ s
  | EmptyString => fill
  end%string.

(** Python's true division on [float]: a zero divisor raises. *)
Definition py_truediv (x y : float) : result float :=
  if PrimFloat.eqb y 0%float then Raise ZeroDivisionError
  else Ok (PrimFloat.div x y).

(** The numbers [bayesian_update] works on: anything with [+] and [-].
    Python's [int] is unbounded, its [float] is binary64. *)
Class PyNumber (A : Type) : Type := {
  py_add : A -> A -> A;
  py_sub : A -> A -> A
}.

#[export] Instance PyInt : PyNumber Z :=
  {| py_add := Z.add; py_sub := Z.sub |}.

#[export] Instance PyFloat : PyNumber float :=
  {| py_add := PrimFloat.add; py_sub := PrimFloat.sub |}.

(** ** The data loader *)

Module BatteryDataLoader.

Record battery_data : Type := {
  cycle : list float;
  capacity : list float;
  impedance : list float
}.

Definition default_threshold : float := 0.8%float.

(** [calculate_lifetime(capacity, threshold)] *)
Definition calculate_lifetime (capacity : list float) (threshold : float)
  : result Z :=
  initial_capacity <- np_first capacity ;;
  let target_capacity := PrimFloat.mul threshold initial_capacity in
  let below_threshold := np_where (np_less capacity target_capacity) in
  match below_threshold with
  | i :: _ => Ok (Z.of_nat i)
  | [] => Ok (Z.of_nat (List.length capacity) - 1)
  end.

(** The two result lists a run of [extract_lifetimes_from_folder] fills. *)
Record lists : Type := {
  lifetimes : list Z;
  initial_capacities : list float
}.

Definition append_lifetime (st : lists) (x : Z) : lists :=
  {| lifetimes := lifetimes st ++ [x];
     initial_capacities := initial_capacities st |}.

Definition append_initial_capacity (st : lists) (x : float) : lists :=
  {| lifetimes := lifetimes st;
     initial_capacities := initial_capacities st ++ [x] |}.

Section Store.

(** [scipy.io.loadmat]: the record store.  It raises [FileNotFoundError]
    for a path that names no file, and may raise anything else on a file
    it cannot read. *)
Variable loadmat : string -> result (dict ndarray2).

(** [load_battery_data(file_path)] *)
Definition load_battery_data (file_path : string) : result battery_data :=
  data <- loadmat file_path ;;
  cycles <- (a <- dict_getitem data "cycle" ;; column0 a) ;;
  capacity <- (a <- dict_getitem data "capacity" ;; column0 a) ;;
  impedance <-
    (if dict_contains data "impedance"
     then a <- dict_getitem data "impedance" ;; column0 a
     else Ok (np_zeros_like capacity)) ;;
  Ok {| cycle := cycles; capacity := capacity; impedance := impedance |}.

Definition file_name_of (i : Z) : string :=
  ("B" ++ zfill (py_str i) 4 ++ ".mat")%string.

Definition file_path_of (folder_path : string) (i : Z) : string :=
  (folder_path ++ "/" ++ file_name_of i)%string.

(** The body of the [try] block for unit [i]: the lists as the block
    leaves them, and how it ends. *)
Definition try_block (folder_path : string) (i : Z) (st : lists)
  : lists * result unit :=
  match load_battery_data (file_path_of folder_path i) with
  | Raise e => (st, Raise e)
  | Ok data =>
      match calculate_lifetime (capacity data) default_threshold with
      | Raise e => (st, Raise e)
      | Ok lifetime =>
          let st1 := append_lifetime st lifetime in
          match np_first (capacity data) with
          | Raise e => (st1, Raise e)
          | Ok c0 => (append_initial_capacity st1 c0, Ok tt)
          end
      end
  end.

(** The [for] loop: [except FileNotFoundError: continue], any other
    exception leaves the function. *)
Fixpoint for_units (folder_path : string) (units : list Z) (st : lists)
  : result lists :=
  match units with
  | [] => Ok st
  | i :: units' =>
      match try_block folder_path i st with
      | (st', Ok _) => for_units folder_path units' st'
      | (st', Raise e) =>
          if exn_is_file_not_found e
          then for_units folder_path units' st'
          else Raise e
      end
  end.

(** [extract_lifetimes_from_folder(folder_path, num_batteries)] *)
Definition extract_lifetimes_from_folder
    (folder_path : string) (num_batteries : Z)
  : result (list Z * list float) :=
  st <- for_units folder_path (py_range 1 (num_batteries + 1))
          {| lifetimes := []; initial_capacities := [] |} ;;
  Ok (lifetimes st, initial_capacities st).

(** What loading and reducing unit [i] alone gives: its lifetime and its
    initial capacity, or the exception met. *)
Definition unit_outcome (folder_path : string) (i : Z)
  : result (Z * float) :=
  data <- load_battery_data (file_path_of folder_path i) ;;
  lifetime <- calculate_lifetime (capacity data) default_threshold ;;
  c0 <- np_first (capacity data) ;;
  Ok (lifetime, c0).

End Store.

(** The batch extraction as specified: the outcomes of the units are taken
    in order, a [FileNotFoundError] is passed over, any other exception
    ends the run. *)
Fixpoint gather (outcomes : list (result (Z * float)))
  : result (list (Z * float)) :=
  match outcomes with
  | [] => Ok []
  | Ok x :: outcomes' => l <- gather outcomes' ;; Ok (x :: l)
  | Raise e :: outcomes' =>
      if exn_is_file_not_found e then gather outcomes' else Raise e
  end.

(** The outcomes that are results, in order. *)
Definition present (outcomes : list (result (Z * float)))
  : list (Z * float) :=
  flat_map (fun o => match o with Ok x => [x] | Raise _ => [] end) outcomes.

(** The lists after the pairs of [l] have been appended. *)
Definition extend (st : lists) (l : list (Z * float)) : lists :=
  {| lifetimes := lifetimes st ++ map fst l;
     initial_capacities := initial_capacities st ++ map snd l |}.

Local Open Scope string_scope.

(** A store with the records of units 1, 2 and 4 only. *)
Definition example_store (file_path : string) : result (dict ndarray2) :=
  if String.eqb file_path "nasa/B0001.mat" then
    Ok [("cycle", [[1; 2; 3; 4]%float]);
        ("capacity", [[2.0; 1.9; 1.5; 1.0]%float])]
  else if String.eqb file_path "nasa/B0002.mat" then
    Ok [("cycle", [[1; 2; 3]%float]);
        ("capacity", [[1.8; 1.7; 1.6]%float]);
        ("impedance", [[0.1; 0.1; 0.2]%float])]
  else if String.eqb file_path "nasa/B0004.mat" then
    Ok [("cycle", [[1; 2]%float]); ("capacity", [[2.0; 1.2]%float])]
  else Raise FileNotFoundError.

End BatteryDataLoader.

(** ** The statistics helper *)

Module StatisticalAnalyzer.

Record weibull_params : Type := {
  k : float;
  lambda : float
}.

Record test_result : Type := {
  z_statistic : float;
  p_value : float;
  reject_H0 : bool
}.

(** [bayesian_update(prior_alpha, prior_beta, successes, trials)] *)
Definition bayesian_update {A : Type} `{PyNumber A}
    (prior_alpha prior_beta successes trials : A) : result (A * A) :=
  let posterior_alpha := py_add prior_alpha successes in
  let posterior_beta := py_sub (py_add prior_beta trials) successes in
  Ok (posterior_alpha, posterior_beta).

Section Scipy.

(** [weibull_min.fit(data, floc=...)], [norm.ppf] and [norm.cdf] of
    scipy.stats. *)
Variable weibull_min_fit :
  list float -> float -> result (float * float * float).
Variable norm_ppf : float -> float.
Variable norm_cdf : float -> float.

(** [fit_weibull_distribution(data)] *)
Definition fit_weibull_distribution (data : list float)
  : result weibull_params :=
  params <- weibull_min_fit data 0%float ;;
  let '(k, loc, scale) := params in
  Ok {| k := k; lambda := scale |}.

Definition default_confidence : float := 0.95%float.

(** [confidence_interval_proportion(successes, trials, confidence)] *)
Definition confidence_interval_proportion
    (successes trials confidence : float) : result (float * float) :=
  p_hat <- py_truediv successes trials ;;
  half <- py_truediv (1 - confidence)%float 2%float ;;
  let z_alpha := norm_ppf (1 - half)%float in
  var <- py_truediv (p_hat * (1 - p_hat))%float trials ;;
  let se := PrimFloat.sqrt var in
  let lower := (p_hat - z_alpha * se)%float in
  let upper := (p_hat + z_alpha * se)%float in
  Ok (lower, upper).

(** [hypothesis_test_proportion(successes, trials, p0, alpha, alternative)];
    [se] is a numpy scalar, so the division that gives [z_stat] is
    numpy's: IEEE division, which raises nothing. *)
Definition hypothesis_test_proportion
    (successes trials p0 alpha : float) (alternative : string)
  : result test_result :=
  p_hat <- py_truediv successes trials ;;
  var <- py_truediv (p0 * (1 - p0))%float trials ;;
  let se := PrimFloat.sqrt var in
  let z_stat := ((p_hat - p0) / se)%float in
  let '(p_value, reject) :=
    if String.eqb alternative "greater" then
      let p_value := (1 - norm_cdf z_stat)%float in
      (p_value, PrimFloat.ltb p_value alpha)
    else if String.eqb alternative "less" then
      let p_value := norm_cdf z_stat in
      (p_value, PrimFloat.ltb p_value alpha)
    else
      let p_value := (2 * (1 - norm_cdf (PrimFloat.abs z_stat)))%float in
      (p_value, PrimFloat.ltb p_value alpha) in
  Ok {| z_statistic := z_stat; p_value := p_value; reject_H0 := reject |}.

End Scipy.

End StatisticalAnalyzer.

(** ** Binary64 numbers as the specification has them

    Auxiliary notions for reasoning on the results of the float operations
    through their specification ([spec_float]). *)

(** The mantissa and exponent [binary_round_aux] ends with. *)
Definition round_mantissa (m e : Z) (l : location) : Z * Z :=
  let '(mrs', e') := shr_fexp prec emax m e l in
  let '(mrs'', e'') :=
    shr_fexp prec emax
      (round_nearest_even (shr_m mrs') (loc_of_shr_record mrs')) e' loc_Exact in
  (shr_m mrs'', e'').

(** Zero, a positive number or plus infinity. *)
Definition sf_nonneg (x : spec_float) : bool :=
  match x with
  | S754_zero _ => true
  | S754_finite s _ _ => negb s
  | S754_infinity s => negb s
  | S754_nan => false
  end.

(** Zero, a negative number or minus infinity. *)
Definition sf_nonpos (x : spec_float) : bool :=
  match x with
  | S754_zero _ => true
  | S754_finite s _ _ => s
  | S754_infinity s => s
  | S754_nan => false
  end.

(** The number 1. *)
Definition sf_one : spec_float := S754_finite false 4503599627370496 (-52).

(** * Properties *)

Import BatteryDataLoader StatisticalAnalyzer.

Example calculate_lifetime_ex :
  calculate_lifetime [2.0; 1.9; 1.8; 1.5; 1.0]%float 0.8%float = Ok 3.
Proof. vm_compute. reflexivity. Qed.

Example file_name_ex : file_name_of 7 = "B0007.mat"%string.
Proof. reflexivity. Qed.

(** ** Facts about binary64 comparison *)

Section FloatOrder.

Local Open Scope float_scope.

Lemma SFcompare_antisym (x y : spec_float) (c : comparison) :
  SFcompare x y = Some c -> SFcompare y x = Some (CompOpp c).
Proof.
  destruct x as [sx | sx | | sx mx ex], y as [sy | sy | | sy my ey];
    cbn [SFcompare]; intros H; try discriminate;
    try (injection H as <-);
    try (destruct sx; reflexivity);
    try (destruct sy; reflexivity);
    try (destruct sx, sy; reflexivity).
  destruct sx, sy; cbn; try reflexivity;
    rewrite (Z.compare_antisym ex ey);
    destruct (Z.compare ex ey); cbn; try reflexivity;
    change (Pos.compare_cont Eq) with Pos.compare;
    rewrite (Pos.compare_antisym mx my);
    destruct (Pos.compare mx my); reflexivity.
Qed.

Lemma SFcompare_defined (x y : spec_float) :
  x <> S754_nan -> y <> S754_nan -> exists c, SFcompare x y = Some c.
Proof.
  destruct x as [sx | sx | | sx mx ex], y as [sy | sy | | sy my ey];
    cbn [SFcompare]; intros Hx Hy; try congruence; eauto.
Qed.

Lemma is_nan_Prim2SF (x : float) :
  is_nan x = false -> Prim2SF x <> S754_nan.
Proof.
  unfold is_nan. rewrite eqb_spec. intros H E. rewrite E in H. discriminate.
Qed.

(** On numbers, "not below" is "at least". *)
Lemma ltb_false_leb (x y : float) :
  is_nan x = false -> is_nan y = false ->
  (x <? y) = false -> (y <=? x) = true.
Proof.
  intros Hx Hy. rewrite ltb_spec, leb_spec. unfold SFltb, SFleb.
  destruct (SFcompare_defined (Prim2SF x) (Prim2SF y)) as [c Hc];
    auto using is_nan_Prim2SF.
  rewrite Hc, (SFcompare_antisym _ _ _ Hc).
  destruct c; cbn; congruence.
Qed.

(** A comparison that holds has no NaN operand. *)
Lemma ltb_true_not_nan (x y : float) :
  (x <? y) = true -> is_nan x = false /\ is_nan y = false.
Proof.
  rewrite ltb_spec. unfold is_nan. rewrite !eqb_spec. unfold SFltb, SFeqb.
  destruct (Prim2SF x) as [sx | sx | | sx mx ex],
           (Prim2SF y) as [sy | sy | | sy my ey];
    cbn [SFcompare]; try discriminate; intros _; split;
    try reflexivity;
    try (destruct sx; reflexivity); try (destruct sy; reflexivity);
    try (destruct sx; cbn; rewrite Z.compare_refl, Pos.compare_cont_refl;
         reflexivity);
    try (destruct sy; cbn; rewrite Z.compare_refl, Pos.compare_cont_refl;
         reflexivity).
Qed.

End FloatOrder.

(** ** The threshold scan *)

Section Scan.

Local Open Scope float_scope.

Lemma np_where_from_empty (i : nat) (mask : list bool) :
  np_where_from i mask = [] -> forall b, In b mask -> b = false.
Proof.
  revert i. induction mask as [| b mask IH]; intros i H b' Hin.
  - destruct Hin.
  - cbn in H. destruct b; [discriminate |].
    destruct Hin as [<- | Hin]; [reflexivity | eauto].
Qed.

Lemma np_where_from_all_false (i : nat) (mask : list bool) :
  (forall b, In b mask -> b = false) -> np_where_from i mask = [].
Proof.
  revert i. induction mask as [| b mask IH]; intros i H; [reflexivity |].
  cbn. rewrite (H b (or_introl eq_refl)). apply IH. intros; apply H.
  now right.
Qed.

(** The head of [np_where] is the first position that holds. *)
Lemma np_where_from_head (i : nat) (mask : list bool) (p : nat)
    (rest : list nat) :
  np_where_from i mask = p :: rest ->
  exists j : nat,
    p = (i + j)%nat /\
    nth_error mask j = Some true /\
    forall j', (j' < j)%nat -> nth_error mask j' = Some false.
Proof.
  revert i. induction mask as [| b mask IH]; intros i H; [discriminate |].
  cbn in H. destruct b.
  - injection H as <- _. exists 0%nat. repeat split; [lia |].
    intros j' Hj'. lia.
  - destruct (IH _ H) as (j & -> & Hj & Hbefore).
    exists (S j). repeat split; [lia | exact Hj |].
    intros [| j'] Hj'; [reflexivity |]. cbn. apply Hbefore. lia.
Qed.

Lemma nth_error_np_less (a : list float) (x : float) (j : nat) (b : bool) :
  nth_error (np_less a x) j = Some b ->
  exists c, nth_error a j = Some c /\ (c <? x) = b.
Proof.
  unfold np_less. rewrite nth_error_map.
  destruct (nth_error a j) as [c |]; cbn; [| discriminate].
  intros [= <-]. eauto.
Qed.

Lemma calculate_lifetime_unfold (c0 : float) (rest : list float)
    (threshold : float) :
  calculate_lifetime (c0 :: rest) threshold =
  match np_where (np_less (c0 :: rest) (threshold * c0)) with
  | i :: _ => Ok (Z.of_nat i)
  | [] => Ok (Z.of_nat (List.length (c0 :: rest)) - 1)%Z
  end.
Proof. reflexivity. Qed.

Lemma np_first_cons (capacity : list float) (c0 : float) :
  np_first capacity = Ok c0 -> exists rest, capacity = c0 :: rest.
Proof.
  destruct capacity as [| c rest]; cbn; [discriminate |].
  intros [= ->]. eauto.
Qed.

End Scan.

Section LifetimeClaims.

Local Open Scope float_scope.

(** C1, as amended: when some element of a non-empty [capacity] is strictly
    below [threshold * capacity[0]], [calculate_lifetime] returns the index
    [i] of the first such element: [capacity[i]] is below the target, no
    [capacity[j]] with [j < i] is below it, and every such [capacity[j]]
    that is a number (not NaN) is at least the target.  On
    [[2.0, 1.9, 1.8, 1.5, 1.0]] with threshold 0.8 the result is 3. *)
Theorem calculate_lifetime_first_below :
  (forall (capacity : list float) (threshold c0 : float),
      np_first capacity = Ok c0 ->
      (exists c, In c capacity /\ (c <? threshold * c0) = true) ->
      exists i : nat,
        calculate_lifetime capacity threshold = Ok (Z.of_nat i) /\
        (exists ci, nth_error capacity i = Some ci /\
                    (ci <? threshold * c0) = true) /\
        (forall j cj, (j < i)%nat -> nth_error capacity j = Some cj ->
           (cj <? threshold * c0) = false /\
           (is_nan cj = false -> (threshold * c0 <=? cj) = true))) /\
  calculate_lifetime [2.0; 1.9; 1.8; 1.5; 1.0] 0.8 = Ok 3%Z.
Proof.
  split; [| vm_compute; reflexivity].
  intros capacity threshold c0 Hfirst (c & Hin & Hc).
  destruct (np_first_cons _ _ Hfirst) as [rest ->].
  rewrite calculate_lifetime_unfold.
  set (target := threshold * c0) in *.
  destruct (np_where (np_less (c0 :: rest) target)) as [| i others] eqn:E.
  - (* some element is below the target, so the mask is not all false *)
    exfalso.
    pose proof (in_map (fun x => x <? target) _ _ Hin) as Hmask.
    apply (np_where_from_empty _ _ E) in Hmask. congruence.
  - destruct (np_where_from_head _ _ _ _ E) as (j & -> & Hj & Hbefore).
    cbn [Nat.add]. exists j. split; [reflexivity |]. split.
    + destruct (nth_error_np_less _ _ _ _ Hj) as (ci & Hci & Hlt). eauto.
    + intros j' cj Hlt Hcj.
      destruct (nth_error_np_less _ _ _ _ (Hbefore j' Hlt)) as (c' & Hc' & F).
      rewrite Hcj in Hc'. injection Hc' as <-. split; [exact F |].
      intros Hnan. apply ltb_false_leb; [exact Hnan | | exact F].
      exact (proj2 (ltb_true_not_nan _ _ Hc)).
Qed.

Lemma calculate_lifetime_first_below_witness :
  exists i : nat,
    calculate_lifetime [2.0; 1.9; 1.5; 1.0] 0.8 = Ok (Z.of_nat i) /\
    (exists ci, nth_error [2.0; 1.9; 1.5; 1.0] i = Some ci /\
                (ci <? 0.8 * 2.0) = true) /\
    (forall j cj, (j < i)%nat ->
       nth_error [2.0; 1.9; 1.5; 1.0] j = Some cj ->
       (cj <? 0.8 * 2.0) = false /\
       (is_nan cj = false -> (0.8 * 2.0 <=? cj) = true)).
Proof.
  apply (proj1 calculate_lifetime_first_below [2.0; 1.9; 1.5; 1.0] 0.8 2.0).
  - reflexivity.
  - exists 1.5. split; [cbn; tauto | vm_compute; reflexivity].
Defined.

(** C1, as stated, fails when a NaN precedes the first crossing: on
    [[2.0, nan, 1.5]] with threshold 0.8 the first element is above the
    target 1.6 and 1.5 is below it, the result is 2, and [capacity[1] >=
    1.6] is false. *)
Lemma calculate_lifetime_nan_before_crossing :
  np_first [2.0; nan; 1.5] = Ok 2.0 /\
  (0.8 * 2.0 <? 2.0) = true /\
  (In 1.5 [2.0; nan; 1.5] /\ (1.5 <? 0.8 * 2.0) = true) /\
  calculate_lifetime [2.0; nan; 1.5] 0.8 = Ok 2%Z /\
  ~ (forall j cj, (j < 2)%nat -> nth_error [2.0; nan; 1.5] j = Some cj ->
       (0.8 * 2.0 <=? cj) = true).
Proof.
  repeat split; try (vm_compute; reflexivity).
  - cbn; tauto.
  - intros H. specialize (H 1%nat nan (le_n 2) eq_refl).
    vm_compute in H. discriminate.
Qed.

(** C2: on a non-empty [capacity] with no element strictly below
    [threshold * capacity[0]], [calculate_lifetime] returns
    [len(capacity) - 1]. *)
Theorem calculate_lifetime_never_below
    (capacity : list float) (threshold c0 : float) :
  np_first capacity = Ok c0 ->
  (forall c, In c capacity -> (c <? threshold * c0) = false) ->
  calculate_lifetime capacity threshold =
  Ok (Z.of_nat (List.length capacity) - 1)%Z.
Proof.
  intros Hfirst Hnone.
  destruct (np_first_cons _ _ Hfirst) as [rest ->].
  rewrite calculate_lifetime_unfold.
  unfold np_where. rewrite np_where_from_all_false; [reflexivity |].
  intros b Hb. unfold np_less in Hb. apply in_map_iff in Hb.
  destruct Hb as (c & <- & Hc). now apply Hnone.
Qed.

Lemma calculate_lifetime_never_below_witness :
  calculate_lifetime [2.0; 1.9; 1.8] 0.8 = Ok 2%Z.
Proof.
  apply (calculate_lifetime_never_below [2.0; 1.9; 1.8] 0.8 2.0).
  - reflexivity.
  - intros c [<- | [<- | [<- | []]]]; vm_compute; reflexivity.
Defined.

(** C9: [calculate_lifetime] reads [capacity[0]] first, so it raises
    [IndexError] on an empty sequence; on every non-empty sequence, for any
    threshold, it returns an integer between 0 and [len(capacity) - 1]. *)
Theorem calculate_lifetime_index_range :
  (forall threshold : float,
      calculate_lifetime [] threshold = Raise IndexError) /\
  (forall (c0 : float) (rest : list float) (threshold : float),
      exists i : Z,
        calculate_lifetime (c0 :: rest) threshold = Ok i /\
        (0 <= i <= Z.of_nat (List.length (c0 :: rest)) - 1)%Z).
Proof.
  split; [reflexivity |].
  intros c0 rest threshold. rewrite calculate_lifetime_unfold.
  destruct (np_where _) as [| i others] eqn:E.
  - eexists; split; [reflexivity |]. cbn [List.length]. lia.
  - eexists; split; [reflexivity |].
    destruct (np_where_from_head _ _ _ _ E) as (j & -> & Hj & _).
    assert (j < List.length (np_less (c0 :: rest) (threshold * c0)))%nat
      as Hlen by (apply nth_error_Some; congruence).
    unfold np_less in Hlen. rewrite length_map in Hlen. lia.
Qed.

End LifetimeClaims.

(** ** The conjugate update *)

Section BayesianUpdate.

(** C6: [bayesian_update] returns exactly
    [(prior_alpha + successes, prior_beta + trials - successes)], whatever
    numbers it is given; [bayesian_update(1, 1, 7, 10)] is [(8, 4)]. *)
Theorem bayesian_update_formula :
  (forall (A : Type) (N : PyNumber A)
          (prior_alpha prior_beta successes trials : A),
      bayesian_update prior_alpha prior_beta successes trials =
      Ok (py_add prior_alpha successes,
          py_sub (py_add prior_beta trials) successes)) /\
  (forall prior_alpha prior_beta successes trials : Z,
      bayesian_update prior_alpha prior_beta successes trials =
      Ok (prior_alpha + successes, prior_beta + trials - successes)) /\
  bayesian_update 1 1 7 10 = Ok (8, 4) /\
  bayesian_update 1%float 1%float 7%float 10%float = Ok (8%float, 4%float).
Proof. repeat split. Qed.

(** C5, as amended: on integers, feeding the posterior of
    [bayesian_update(a, b, s, n)] back in as the prior of a second update
    with [(s2, n2)] gives exactly [bayesian_update(a, b, s + s2, n + n2)]. *)
Theorem bayesian_update_additive_int (a b s n s2 n2 : Z) :
  (posterior <- bayesian_update a b s n ;;
   bayesian_update (fst posterior) (snd posterior) s2 n2) =
  bayesian_update a b (s + s2) (n + n2).
Proof.
  unfold bayesian_update. cbn. f_equal. f_equal; lia.
Qed.

(** C5, as stated for all numbers, fails on floats, where each addition
    rounds: with prior (0.01, 1), 8 successes in 10 trials twice give
    alpha 16.009999999999998, the combined 16 in 20 give 16.01. *)
Lemma bayesian_update_additive_float_counterexample :
  (posterior <- bayesian_update 0.01%float 1%float 8%float 10%float ;;
   bayesian_update (fst posterior) (snd posterior) 8%float 10%float) =
  Ok (16.009999999999998%float, 5%float) /\
  bayesian_update 0.01%float 1%float (8 + 8)%float (10 + 10)%float =
  Ok (16.01%float, 5%float) /\
  PrimFloat.eqb 16.009999999999998%float 16.01%float = false.
Proof. repeat split. Qed.

(** C10: [bayesian_update] checks nothing.  It returns a pair on every
    input, on integers the pair [(a + s, b + n - s)]; with negative
    successes, with more successes than trials, or with non-positive priors
    it returns non-positive posterior parameters. *)
Theorem bayesian_update_unchecked :
  (forall (A : Type) (N : PyNumber A) (a b s n : A),
      exists posterior, bayesian_update a b s n = Ok posterior) /\
  (forall a b s n : Z,
      bayesian_update a b s n = Ok (a + s, b + n - s)) /\
  bayesian_update 1 1 (-3) 2 = Ok (-2, 6) /\
  bayesian_update 1 1 5 2 = Ok (6, -2) /\
  bayesian_update (-1) 0 0 0 = Ok (-1, 0) /\
  bayesian_update 1%float 1%float (-3)%float 2%float = Ok ((-2)%float, 6%float).
Proof.
  split; [| repeat split].
  intros A N a b s n. eexists. reflexivity.
Qed.

End BayesianUpdate.

(** ** Division by a zero standard error *)

Section ZeroStandardError.

Local Open Scope float_scope.

Lemma Prim2SF_zero : Prim2SF 0 = S754_zero false.
Proof. reflexivity. Qed.

Lemma Prim2SF_infinity : Prim2SF infinity = S754_infinity false.
Proof. reflexivity. Qed.

Lemma positive_not_zero (t : float) : (0 <? t) = true -> (t =? 0) = false.
Proof.
  rewrite ltb_spec, eqb_spec, Prim2SF_zero. unfold SFltb, SFeqb.
  destruct (Prim2SF t) as [s | s | | s m e]; cbn; try discriminate.
  - destruct s; [discriminate | reflexivity].
  - destruct s; [discriminate | reflexivity].
Qed.

Lemma zero_div_positive (t : float) :
  (0 <? t) = true -> exists s, Prim2SF (0 / t) = S754_zero s.
Proof.
  rewrite ltb_spec, div_spec, Prim2SF_zero. unfold SFltb, SF64div.
  destruct (Prim2SF t) as [s | s | | s m e]; cbn; try discriminate; eauto.
Qed.

Lemma sqrt_of_zero (v : float) (s : bool) :
  Prim2SF v = S754_zero s -> Prim2SF (sqrt v) = S754_zero s.
Proof. intros H. rewrite sqrt_spec, H. reflexivity. Qed.

Lemma not_finite_of_spec (z : float) :
  Prim2SF z = S754_nan \/ (exists s, Prim2SF z = S754_infinity s) ->
  is_finite z = false.
Proof.
  unfold is_finite, is_nan, is_infinity.
  rewrite !eqb_spec, abs_spec, Prim2SF_infinity.
  intros [-> | [s ->]]; [reflexivity | destruct s; reflexivity].
Qed.

(** IEEE division by zero gives an infinity or NaN. *)
Lemma div_by_zero_not_finite (x se : float) (s : bool) :
  Prim2SF se = S754_zero s -> is_finite (x / se) = false.
Proof.
  intros H. apply not_finite_of_spec. rewrite div_spec, H. unfold SF64div.
  destruct (Prim2SF x) as [sx | sx | | sx mx ex]; cbn; eauto.
Qed.

Variable norm_cdf : float -> float.

(** C3, as amended: with [trials > 0] and [p0] equal to 0 or 1 the call
    raises nothing; the standard error is zero and the call returns a
    result whose z-statistic is an infinity or NaN. *)
Theorem hypothesis_test_degenerate_null
    (successes trials p0 alpha : float) (alternative : string) :
  (0 <? trials) = true ->
  p0 = 0 \/ p0 = 1 ->
  exists r : test_result,
    hypothesis_test_proportion norm_cdf successes trials p0 alpha alternative
      = Ok r /\
    z_statistic r = (successes / trials - p0) / sqrt (0 / trials) /\
    is_finite (z_statistic r) = false.
Proof.
  intros Hpos Hp0.
  assert ((p0 * (1 - p0)) = 0) as Hvar by (destruct Hp0; subst; reflexivity).
  unfold hypothesis_test_proportion, py_truediv.
  rewrite Hvar, (positive_not_zero _ Hpos). cbn [bind].
  destruct (zero_div_positive _ Hpos) as [s Hs].
  pose proof (div_by_zero_not_finite (successes / trials - p0) _ _
                (sqrt_of_zero _ _ Hs)) as Hz.
  destruct (String.eqb alternative "greater");
    [| destruct (String.eqb alternative "less")];
    (eexists; split; [reflexivity | split; [reflexivity | exact Hz]]).
Qed.

End ZeroStandardError.

Lemma hypothesis_test_degenerate_null_witness :
  exists r : test_result,
    hypothesis_test_proportion (fun _ => 1%float) 60 100 0 0.05 "greater"
      = Ok r /\
    z_statistic r = ((60 / 100 - 0) / PrimFloat.sqrt (0 / 100))%float /\
    is_finite (z_statistic r) = false.
Proof.
  apply (hypothesis_test_degenerate_null (fun _ => 1%float)).
  - reflexivity.
  - left; reflexivity.
Defined.

(** C3, as stated, fails: [hypothesis_test_proportion(60, 100, 0)] raises
    no error; whatever [norm.cdf] returns, the call returns a result whose
    z-statistic is the infinity that dividing by the zero standard error
    gave. *)
Lemma hypothesis_test_returns_infinity :
  exists z : float,
    z = infinity /\
    forall (norm_cdf : float -> float) (alternative : string),
    exists r : test_result,
      hypothesis_test_proportion norm_cdf 60 100 0 0.05 alternative = Ok r /\
      z_statistic r = z.
Proof.
  exists infinity. split; [reflexivity |]. intros norm_cdf alternative.
  unfold hypothesis_test_proportion. cbn [py_truediv bind].
  destruct (String.eqb alternative "greater");
    [| destruct (String.eqb alternative "less")];
    (eexists; split; reflexivity).
Qed.

(** ** The batch extraction *)

Section Batch.

Variable loadmat : string -> result (dict ndarray2).
Variable folder_path : string.

Local Abbreviation load := (load_battery_data loadmat).
Local Abbreviation outcome := (unit_outcome loadmat folder_path).

(** Reducing a record raises nothing but [IndexError]. *)
Lemma calculate_lifetime_raises (cap : list float) (threshold : float)
    (e : exn) :
  calculate_lifetime cap threshold = Raise e -> e = IndexError.
Proof.
  destruct cap as [| c0 rest]; [cbn; congruence |].
  rewrite calculate_lifetime_unfold. destruct (np_where _); discriminate.
Qed.

Lemma np_first_raises (a : list float) (e : exn) :
  np_first a = Raise e -> e = IndexError.
Proof. destruct a; cbn; congruence. Qed.

Lemma column0_raises (a : ndarray2) (e : exn) :
  column0 a = Raise e -> e = IndexError.
Proof. destruct a; cbn; congruence. Qed.

Lemma dict_getitem_raises {V : Type} (d : dict V) (key : string) (e : exn) :
  dict_getitem d key = Raise e -> e = KeyError key.
Proof. unfold dict_getitem. destruct (dict_find d key); congruence. Qed.

Lemma field_raises (d : dict ndarray2) (key : string) (e : exn) :
  (a <- dict_getitem d key ;; column0 a) = Raise e ->
  exn_is_file_not_found e = false.
Proof.
  destruct (dict_getitem d key) as [a | e'] eqn:E; cbn.
  - intros H. now rewrite (column0_raises _ _ H).
  - intros [= <-]. now rewrite (dict_getitem_raises _ _ _ E).
Qed.

(** [load_battery_data] raises [FileNotFoundError] exactly when the store
    does. *)
Lemma load_file_not_found (file_path : string) :
  load file_path = Raise FileNotFoundError <->
  loadmat file_path = Raise FileNotFoundError.
Proof.
  unfold load_battery_data.
  destruct (loadmat file_path) as [data | e]; cbn; [| split; congruence].
  split; [| discriminate]. intros H. exfalso.
  destruct (a <- dict_getitem data "cycle" ;; column0 a)
    as [cycles | e1] eqn:E1; cbn in H.
  2: { injection H as ->. now apply field_raises in E1. }
  destruct (a <- dict_getitem data "capacity" ;; column0 a)
    as [cap | e2] eqn:E2; cbn in H.
  2: { injection H as ->. now apply field_raises in E2. }
  destruct (dict_contains data "impedance").
  - destruct (a <- dict_getitem data "impedance" ;; column0 a)
      as [imp | e3] eqn:E3; cbn in H; [discriminate |].
    injection H as ->. now apply field_raises in E3.
  - cbn in H. discriminate.
Qed.

(** A unit is passed over exactly when its file is not found. *)
Lemma outcome_file_not_found (i : Z) :
  outcome i = Raise FileNotFoundError <->
  loadmat (file_path_of folder_path i) = Raise FileNotFoundError.
Proof.
  rewrite <- load_file_not_found. unfold unit_outcome.
  destruct (load (file_path_of folder_path i)) as [data | e]; cbn;
    [| split; congruence].
  split; [| discriminate]. intros H. exfalso.
  destruct (calculate_lifetime (capacity data) default_threshold)
    as [lt | e1] eqn:E1; cbn in H.
  2: { injection H as ->. apply calculate_lifetime_raises in E1.
       discriminate. }
  destruct (np_first (capacity data)) as [c0 | e2] eqn:E2; cbn in H;
    [discriminate |].
  injection H as ->. apply np_first_raises in E2. discriminate.
Qed.

Lemma exn_is_file_not_found_true (e : exn) :
  exn_is_file_not_found e = true -> e = FileNotFoundError.
Proof. destruct e; cbn; congruence. Qed.

(** The [try] block against the outcome of its unit. *)
Lemma try_block_outcome (i : Z) (st : lists) :
  match outcome i with
  | Ok (lifetime, c0) =>
      try_block loadmat folder_path i st =
      (append_initial_capacity (append_lifetime st lifetime) c0, Ok tt)
  | Raise e =>
      exists st', try_block loadmat folder_path i st = (st', Raise e) /\
                  (exn_is_file_not_found e = true -> st' = st)
  end.
Proof.
  pose proof (outcome_file_not_found i) as Hfnf.
  pose proof (load_file_not_found (file_path_of folder_path i)) as Hload.
  unfold unit_outcome, try_block in *.
  destruct (load (file_path_of folder_path i)) as [data | e]; cbn in *.
  - destruct (calculate_lifetime (capacity data) default_threshold)
      as [lt | e1] eqn:E1; cbn in *.
    + destruct (np_first (capacity data)) as [c0 | e2] eqn:E2; cbn in *;
        [reflexivity |].
      eexists; split; [reflexivity |]. intros He.
      apply exn_is_file_not_found_true in He. subst e2.
      apply np_first_raises in E2. discriminate.
    + eexists; split; [reflexivity | reflexivity].
  - eexists; split; [reflexivity | reflexivity].
Qed.

(** The loop computes [gather] over the outcomes of its units. *)
Lemma for_units_gather (units : list Z) (st : lists) :
  for_units loadmat folder_path units st =
  (l <- gather (map outcome units) ;; Ok (extend st l)).
Proof.
  revert st. induction units as [| i units IH]; intros st.
  - cbn. unfold extend. cbn. now rewrite !app_nil_r; destruct st.
  - cbn [for_units map gather].
    pose proof (try_block_outcome i st) as Hblock.
    destruct (outcome i) as [[lt c0] | e].
    + rewrite Hblock, IH. destruct (gather (map outcome units)); cbn;
        [| reflexivity].
      unfold extend, append_initial_capacity, append_lifetime. cbn.
      now rewrite <- !app_assoc.
    + destruct Hblock as (st' & -> & Hst).
      destruct (exn_is_file_not_found e); [| reflexivity].
      rewrite (Hst eq_refl). apply IH.
Qed.

Lemma extract_gather (num_batteries : Z) :
  extract_lifetimes_from_folder loadmat folder_path num_batteries =
  (l <- gather (map outcome (py_range 1 (num_batteries + 1))) ;;
   Ok (map fst l, map snd l)).
Proof.
  unfold extract_lifetimes_from_folder. rewrite for_units_gather.
  destruct (gather _); reflexivity.
Qed.

End Batch.

(** ** Ranges and the gathered outcomes *)

Section Gather.

Lemma in_py_range (start stop i : Z) :
  In i (py_range start stop) <-> start <= i < stop.
Proof.
  unfold py_range. rewrite in_map_iff. split.
  - intros (k & <- & Hk). apply in_seq in Hk. lia.
  - intros H. exists (Z.to_nat (i - start)). split; [lia |].
    apply in_seq. lia.
Qed.

Lemma py_range_cons (start stop : Z) :
  start < stop -> py_range start stop = start :: py_range (start + 1) stop.
Proof.
  intros H. unfold py_range.
  replace (Z.to_nat (stop - start))
    with (S (Z.to_nat (stop - (start + 1)))) by lia.
  cbn [seq map]. f_equal; [lia |].
  rewrite <- seq_shift, map_map. apply map_ext. intros k. lia.
Qed.

Lemma py_range_app (start mid stop : Z) :
  start <= mid <= stop ->
  py_range start stop = py_range start mid ++ py_range mid stop.
Proof.
  intros H. remember (Z.to_nat (mid - start)) as n eqn:En.
  revert start H En. induction n as [| n IH]; intros start H En.
  - assert (mid = start) as -> by lia.
    unfold py_range at 2. now rewrite Z.sub_diag.
  - rewrite (py_range_cons start stop), (py_range_cons start mid) by lia.
    cbn [app]. f_equal. apply IH; lia.
Qed.

Lemma gather_present (outcomes : list (result (Z * float))) :
  (forall e, In (Raise e) outcomes -> e = FileNotFoundError) ->
  gather outcomes = Ok (present outcomes).
Proof.
  induction outcomes as [| o outcomes IH]; intros H; [reflexivity |].
  assert (gather outcomes = Ok (present outcomes)) as IH'
    by (apply IH; intros e He; apply H; now right).
  destruct o as [x | e]; cbn [gather].
  - now rewrite IH'.
  - rewrite (H e (or_introl eq_refl)). exact IH'.
Qed.

Lemma gather_first_failure (before after : list (result (Z * float)))
    (e : exn) :
  (forall e', In (Raise e') before -> e' = FileNotFoundError) ->
  e <> FileNotFoundError ->
  gather (before ++ Raise e :: after) = Raise e.
Proof.
  intros Hbefore He. induction before as [| o before IH]; cbn [app gather].
  - destruct (exn_is_file_not_found e) eqn:E; [| reflexivity].
    now apply exn_is_file_not_found_true in E.
  - assert (gather (before ++ Raise e :: after) = Raise e) as IH'
      by (apply IH; intros e' He'; apply Hbefore; now right).
    destruct o as [x | e'].
    + now rewrite IH'.
    + rewrite (Hbefore e' (or_introl eq_refl)). exact IH'.
Qed.

End Gather.

Section BatchClaim.

Variable loadmat : string -> result (dict ndarray2).
Variable folder_path : string.

Local Abbreviation outcome := (unit_outcome loadmat folder_path).
Local Abbreviation path := (file_path_of folder_path).

(** C4: [extract_lifetimes_from_folder] goes through the unit indices 1 to
    [num_batteries] in order.  A unit is passed over exactly when its file
    is not found; when no unit fails otherwise, the call returns the
    lifetimes and initial capacities of the units found, in order.  The
    first unit that fails with another exception makes the call raise that
    exception.  With 5 units of which 1, 2 and 4 are there, the lifetimes
    returned are three. *)
Theorem extract_lifetimes_skips_missing :
  (forall num_batteries i : Z,
      In i (py_range 1 (num_batteries + 1)) <-> 1 <= i <= num_batteries) /\
  (forall i : Z,
      outcome i = Raise FileNotFoundError <->
      loadmat (path i) = Raise FileNotFoundError) /\
  (forall num_batteries : Z,
      (forall i e, 1 <= i <= num_batteries -> outcome i = Raise e ->
                   e = FileNotFoundError) ->
      let found := present (map outcome (py_range 1 (num_batteries + 1))) in
      extract_lifetimes_from_folder loadmat folder_path num_batteries =
      Ok (map fst found, map snd found)) /\
  (forall (num_batteries i : Z) (e : exn),
      1 <= i <= num_batteries ->
      outcome i = Raise e ->
      e <> FileNotFoundError ->
      (forall j e', 1 <= j < i -> outcome j = Raise e' ->
                    e' = FileNotFoundError) ->
      extract_lifetimes_from_folder loadmat folder_path num_batteries =
      Raise e) /\
  (forall x1 x2 x4 : Z * float,
      outcome 1 = Ok x1 -> outcome 2 = Ok x2 -> outcome 4 = Ok x4 ->
      loadmat (path 3) = Raise FileNotFoundError ->
      loadmat (path 5) = Raise FileNotFoundError ->
      extract_lifetimes_from_folder loadmat folder_path 5 =
      Ok ([fst x1; fst x2; fst x4], [snd x1; snd x2; snd x4])).
Proof.
  split; [| split; [| split; [| split]]].
  - intros n i. rewrite in_py_range. lia.
  - apply outcome_file_not_found.
  - intros n Hall found. rewrite extract_gather, gather_present; [reflexivity |].
    intros e He. apply in_map_iff in He. destruct He as (i & Hi & Hin).
    apply in_py_range in Hin. apply (Hall i); [lia | exact Hi].
  - intros n i e Hi Hout He Hbefore. rewrite extract_gather.
    rewrite (py_range_app 1 i (n + 1)), (py_range_cons i (n + 1)) by lia.
    rewrite map_app. cbn [map]. rewrite Hout, gather_first_failure;
      [reflexivity | | exact He].
    intros e' He'. apply in_map_iff in He'. destruct He' as (j & Hj & Hin).
    apply in_py_range in Hin. now apply (Hbefore j).
  - intros x1 x2 x4 H1 H2 H4 H3 H5. rewrite extract_gather.
    change (py_range 1 (5 + 1)) with [1; 2; 3; 4; 5]. cbn [map].
    apply outcome_file_not_found in H3, H5.
    rewrite H1, H2, H3, H4, H5. reflexivity.
Qed.

End BatchClaim.

Lemma extract_lifetimes_skips_missing_witness :
  extract_lifetimes_from_folder example_store "nasa" 5 =
  Ok ([2; 2; 1], [2.0; 1.8; 2.0]%float).
Proof.
  exact (proj2 (proj2 (proj2 (proj2
           (extract_lifetimes_skips_missing example_store "nasa"))))
           (2, 2.0%float) (2, 1.8%float) (1, 2.0%float)
           eq_refl eq_refl eq_refl eq_refl eq_refl).
Defined.

(** ** The Weibull fit *)

Section WeibullFit.

Variable weibull_min_fit :
  list float -> float -> result (float * float * float).

(** [fit_weibull_distribution] checks nothing itself: it calls the library
    fit with the location fixed at 0, hands on what the library raises, and
    otherwise keeps the shape and the scale. *)
Lemma fit_weibull_distribution_delegates (data : list float) :
  fit_weibull_distribution weibull_min_fit data =
  match weibull_min_fit data 0%float with
  | Ok (shape, _, scale) => Ok {| k := shape; lambda := scale |}
  | Raise e => Raise e
  end.
Proof.
  unfold fit_weibull_distribution.
  destruct (weibull_min_fit data 0%float) as [[[shape loc] scale] | e];
    reflexivity.
Qed.

End WeibullFit.

(** ** Binary64 rounding *)

Section Digits.

Lemma fexp_eq (e : Z) : fexp prec emax e = Z.max (e - 53) (-1074).
Proof. reflexivity. Qed.

Lemma fexp_mono (a b : Z) : a <= b -> fexp prec emax a <= fexp prec emax b.
Proof. rewrite !fexp_eq. lia. Qed.

Lemma digits2_pos_size (p : positive) : digits2_pos p = Pos.size p.
Proof. induction p; cbn; congruence. Qed.

Lemma Zdigits2_log2 (m : Z) : 0 < m -> Zdigits2 m = Z.log2 m + 1.
Proof.
  destruct m as [| p | p]; try lia. intros _. cbn [Zdigits2].
  rewrite digits2_pos_size. destruct p; cbn [Pos.size Z.log2]; lia.
Qed.

Lemma Zdigits2_bounds (m : Z) :
  0 < m -> 2 ^ (Zdigits2 m - 1) <= m < 2 ^ Zdigits2 m.
Proof.
  intros H. rewrite Zdigits2_log2 by assumption.
  replace (Z.log2 m + 1 - 1) with (Z.log2 m) by lia.
  apply Z.log2_spec in H. now rewrite <- Z.add_1_r in H.
Qed.

Lemma Zdigits2_le_iff (m k : Z) : 0 < m -> Zdigits2 m <= k <-> m < 2 ^ k.
Proof.
  intros H. rewrite Zdigits2_log2, (Z.log2_lt_pow2 m k) by assumption. lia.
Qed.

Lemma Zdigits2_gt_iff (m k : Z) : 0 < m -> k < Zdigits2 m <-> 2 ^ k <= m.
Proof.
  intros H. rewrite Zdigits2_log2, (Z.log2_le_pow2 m k) by assumption. lia.
Qed.

Lemma Zdigits2_pos (m : Z) : 0 < m -> 0 < Zdigits2 m.
Proof.
  intros H. rewrite Zdigits2_log2 by assumption.
  pose proof (Z.log2_nonneg m). lia.
Qed.

Lemma bounded_inv (m : positive) (e : Z) :
  bounded prec emax m e = true ->
  -1074 <= e <= 971 /\ Zdigits2 (Zpos m) <= 53 /\
  (e = -1074 \/ Zdigits2 (Zpos m) = 53).
Proof.
  unfold bounded, canonical_mantissa. rewrite andb_true_iff, fexp_eq.
  cbn [Zdigits2]. intros [Hc He]. apply Z.eqb_eq in Hc. apply Z.leb_le in He.
  change (emax - prec) with 971 in He. lia.
Qed.

End Digits.

Section ShiftRight.

Lemma iter_pos_nat {A : Type} (f : A -> A) (p : positive) (x : A) :
  iter_pos f p x = Nat.iter (Pos.to_nat p) f x.
Proof.
  revert x. induction p as [p IH | p IH |]; intros x; cbn [iter_pos].
  - rewrite !IH, Pos2Nat.inj_xI.
    replace (S (2 * Pos.to_nat p))
      with (Pos.to_nat p + (Pos.to_nat p + 1))%nat by lia.
    now rewrite !Nat.iter_add.
  - rewrite !IH, Pos2Nat.inj_xO.
    replace (2 * Pos.to_nat p)%nat
      with (Pos.to_nat p + Pos.to_nat p)%nat by lia.
    now rewrite Nat.iter_add.
  - reflexivity.
Qed.

Lemma shr_1_spec (m : Z) (r s : bool) :
  0 <= m ->
  shr_1 (Build_shr_record m r s) =
  Build_shr_record (m / 2) (Z.odd m) (r || s).
Proof.
  intros H. rewrite <- Z.div2_div.
  destruct m as [| p | p]; [reflexivity | | lia].
  destruct p; reflexivity.
Qed.

(** After [k] one-bit shifts the mantissa is the quotient by [2 ^ k]; the
    record says "exact" exactly when nothing was lost. *)
Lemma iter_shr_1_spec (k : nat) (m : Z) (r s : bool) :
  0 <= m ->
  let out := Nat.iter k shr_1 (Build_shr_record m r s) in
  shr_m out = m / 2 ^ Z.of_nat k /\
  (shr_r out = false /\ shr_s out = false <->
   r = false /\ s = false /\ m mod 2 ^ Z.of_nat k = 0).
Proof.
  intros Hm. induction k as [| k IH]; cbn zeta.
  - cbn [Nat.iter nat_rect shr_m shr_r shr_s Z.of_nat].
    rewrite Z.pow_0_r, Z.div_1_r, Z.mod_1_r. tauto.
  - rewrite Nat.iter_succ. cbn zeta in IH. destruct IH as [IHm IHx].
    destruct (Nat.iter k shr_1 (Build_shr_record m r s)) as [mk rk sk].
    cbn [shr_m shr_r shr_s] in *.
    assert (0 < 2 ^ Z.of_nat k) as Hpow by (apply Z.pow_pos_nonneg; lia).
    assert (0 <= mk) as Hmk by (rewrite IHm; apply Z.div_pos; lia).
    rewrite (shr_1_spec _ _ _ Hmk). cbn [shr_m shr_r shr_s].
    rewrite Nat2Z.inj_succ, Z.pow_succ_r by lia.
    split; [rewrite IHm, Z.div_div by lia; f_equal; lia |].
    rewrite orb_false_iff, IHx.
    assert (Z.odd mk = false /\ m mod 2 ^ Z.of_nat k = 0 <->
            m mod (2 * 2 ^ Z.of_nat k) = 0) as Hdiv.
    { rewrite <- Z.negb_even, negb_false_iff, Z.even_spec.
      rewrite !Z.mod_divide by lia. split.
      - intros [[q Hq] [c Hc]]. exists q.
        rewrite Hc, Z.div_mul in IHm by lia. lia.
      - intros [q Hq]. split.
        + exists q. rewrite IHm, Hq.
          replace (q * (2 * 2 ^ Z.of_nat k)) with (q * 2 * 2 ^ Z.of_nat k)
            by lia.
          rewrite Z.div_mul by lia. lia.
        + exists (q * 2). lia. }
    tauto.
Qed.

Lemma loc_of_shr_record_exact (mrs : shr_record) :
  loc_of_shr_record mrs = loc_Exact <->
  shr_r mrs = false /\ shr_s mrs = false.
Proof.
  destruct mrs as [m [|] [|]]; cbn; split; intros H; try discriminate;
    try (destruct H; discriminate); auto.
Qed.

Lemma shr_record_of_loc_fields (m : Z) (l : location) :
  shr_m (shr_record_of_loc m l) = m /\
  loc_of_shr_record (shr_record_of_loc m l) = l.
Proof. destruct l as [| []]; cbn; auto. Qed.

(** [shr] from a mantissa and a location. *)
Lemma shr_spec (m : Z) (l : location) (e n : Z) :
  0 <= m ->
  let out := shr (shr_record_of_loc m l) e n in
  let k := Z.max n 0 in
  snd out = e + k /\
  shr_m (fst out) = m / 2 ^ k /\
  (loc_of_shr_record (fst out) = loc_Exact <->
   l = loc_Exact /\ m mod 2 ^ k = 0).
Proof.
  intros Hm. destruct n as [| p | p]; cbn zeta; cbn [shr fst snd].
  - rewrite Z.add_0_r, Z.pow_0_r, Z.div_1_r, Z.mod_1_r.
    destruct (shr_record_of_loc_fields m l) as [-> ->]. tauto.
  - replace (Z.max (Z.pos p) 0) with (Z.pos p) by lia.
    rewrite iter_pos_nat. split; [reflexivity |].
    assert (exists r s, shr_record_of_loc m l = Build_shr_record m r s /\
                        (r = false /\ s = false <-> l = loc_Exact))
      as (r & s & -> & Hl)
      by (destruct l as [| []]; do 2 eexists; (split; [reflexivity |]);
          split; intros H; try discriminate; try (destruct H; discriminate);
          auto).
    pose proof (iter_shr_1_spec (Pos.to_nat p) m r s Hm) as H.
    cbn zeta in H. rewrite positive_nat_Z in H. destruct H as [H1 H2].
    split; [exact H1 |]. rewrite loc_of_shr_record_exact, H2. tauto.
  - replace (Z.max (Z.neg p) 0) with 0 by lia.
    rewrite Z.add_0_r, Z.pow_0_r, Z.div_1_r, Z.mod_1_r.
    destruct (shr_record_of_loc_fields m l) as [-> ->]. tauto.
Qed.

Lemma round_nearest_even_bounds (m : Z) (l : location) :
  m <= round_nearest_even m l <= m + 1 /\
  (l = loc_Exact -> round_nearest_even m l = m).
Proof.
  destruct l as [| []]; cbn [round_nearest_even];
    (split; [| intros; try discriminate; reflexivity]); try lia.
  destruct (Z.even m); lia.
Qed.

End ShiftRight.

Section Rounding.

Lemma binary_round_aux_mantissa (sx : bool) (m e : Z) (l : location) :
  binary_round_aux prec emax sx m e l =
  match fst (round_mantissa m e l) with
  | Z0 => S754_zero sx
  | Zpos p =>
      if snd (round_mantissa m e l) <=? 971 then
        S754_finite sx p (snd (round_mantissa m e l))
      else S754_infinity sx
  | Zneg _ => S754_nan
  end.
Proof.
  unfold binary_round_aux, round_mantissa.
  destruct (shr_fexp prec emax m e l) as [mrs' e'].
  destruct (shr_fexp prec emax _ e' loc_Exact) as [mrs'' e'']. reflexivity.
Qed.

Lemma pow2_pos (k : Z) : 0 <= k -> 0 < 2 ^ k.
Proof. intros. apply Z.pow_pos_nonneg; lia. Qed.

Lemma pow2_split (a b : Z) : 0 <= a -> 0 <= b -> 2 ^ (a + b) = 2 ^ a * 2 ^ b.
Proof. intros. now apply Z.pow_add_r. Qed.

Lemma Zdigits2_mul_pow2 (m k : Z) :
  0 < m -> 0 <= k -> Zdigits2 (m * 2 ^ k) = Zdigits2 m + k.
Proof.
  intros Hm Hk. pose proof (pow2_pos k Hk).
  rewrite !Zdigits2_log2 by nia. rewrite Z.log2_mul_pow2 by lia. lia.
Qed.

(** What the two shifts and the rounding in between compute. *)
Lemma round_mantissa_spec (m e : Z) (l : location) :
  0 <= m ->
  exists k1 m1 k2 : Z,
    k1 = Z.max (fexp prec emax (Zdigits2 m + e) - e) 0 /\
    k2 = Z.max (fexp prec emax (Zdigits2 m1 + (e + k1)) - (e + k1)) 0 /\
    (m1 = m / 2 ^ k1 \/
     m1 = m / 2 ^ k1 + 1 /\ (l <> loc_Exact \/ m mod 2 ^ k1 <> 0)) /\
    round_mantissa m e l = (m1 / 2 ^ k2, e + k1 + k2).
Proof.
  intros Hm. unfold round_mantissa, shr_fexp.
  pose proof (shr_spec m l e (fexp prec emax (Zdigits2 m + e) - e) Hm) as H1.
  cbn zeta in H1.
  destruct (shr (shr_record_of_loc m l) e _) as [mrs' e'].
  cbn [fst snd] in H1. destruct H1 as (-> & Hm' & Hex).
  set (k1 := Z.max (fexp prec emax (Zdigits2 m + e) - e) 0) in *.
  set (m1 := round_nearest_even (shr_m mrs') (loc_of_shr_record mrs')).
  assert (0 <= shr_m mrs') as Hm'pos
    by (rewrite Hm'; apply Z.div_pos; [lia | apply pow2_pos; lia]).
  destruct (round_nearest_even_bounds (shr_m mrs') (loc_of_shr_record mrs'))
    as [Hb Hexact]. fold m1 in Hb, Hexact.
  assert (0 <= m1) as Hm1 by lia.
  pose proof (shr_spec m1 loc_Exact (e + k1)
                (fexp prec emax (Zdigits2 m1 + (e + k1)) - (e + k1)) Hm1)
    as H2.
  cbn zeta in H2.
  destruct (shr (shr_record_of_loc m1 loc_Exact) (e + k1) _) as [mrs'' e''].
  cbn [fst snd] in H2. destruct H2 as (-> & Hm'' & _).
  exists k1, m1, (Z.max (fexp prec emax (Zdigits2 m1 + (e + k1)) - (e + k1)) 0).
  repeat split; [| now rewrite Hm''].
  destruct (Z.eq_dec m1 (shr_m mrs')) as [E | E].
  - left. now rewrite E.
  - right. split; [lia |].
    destruct l as [| c]; [| left; discriminate]. right. intros Hmod.
    apply E, Hexact, Hex. auto.
Qed.

End Rounding.

Section Values.

Lemma div_pow2_bounds (m k : Z) :
  0 <= m -> 0 <= k ->
  (m / 2 ^ k) * 2 ^ k <= m < (m / 2 ^ k + 1) * 2 ^ k /\
  (m mod 2 ^ k <> 0 -> (m / 2 ^ k) * 2 ^ k < m).
Proof.
  intros Hm Hk. pose proof (pow2_pos k Hk) as Hp.
  pose proof (Z.div_mod m (2 ^ k) ltac:(lia)) as Hdm.
  pose proof (Z.mod_pos_bound m (2 ^ k) Hp) as Hmod. nia.
Qed.

Lemma bounded_mantissa (m : positive) (e : Z) :
  bounded prec emax m e = true ->
  Zpos m < 2 ^ 53 /\ (-1074 < e -> 2 ^ 52 <= Zpos m).
Proof.
  intros H. destruct (bounded_inv m e H) as (He & Hd & Hn). split.
  - apply Zdigits2_le_iff; lia.
  - intros Hlt. apply Zdigits2_gt_iff; lia.
Qed.

(** Finite positive numbers compare as their values do. *)
Lemma SFcompare_finite_pos (m1 : positive) (e1 : Z) (m2 : positive) (e2 b : Z) :
  bounded prec emax m1 e1 = true -> bounded prec emax m2 e2 = true ->
  b <= -1074 ->
  SFcompare (S754_finite false m1 e1) (S754_finite false m2 e2) =
  Some (Zpos m1 * 2 ^ (e1 - b) ?= Zpos m2 * 2 ^ (e2 - b)).
Proof.
  intros H1 H2 Hb.
  destruct (bounded_inv m1 e1 H1) as (He1 & _ & _).
  destruct (bounded_inv m2 e2 H2) as (He2 & _ & _).
  destruct (bounded_mantissa m1 e1 H1) as (Hu1 & Hl1).
  destruct (bounded_mantissa m2 e2 H2) as (Hu2 & Hl2).
  cbn [SFcompare]. f_equal.
  destruct (Z.compare_spec e1 e2) as [-> | Hlt | Hgt].
  - change (Pos.compare_cont Eq m1 m2) with (Zpos m1 ?= Zpos m2).
    pose proof (pow2_pos (e2 - b) ltac:(lia)).
    destruct (Z.compare_spec (Zpos m1) (Zpos m2)); symmetry;
      [apply Z.compare_eq_iff | apply Z.compare_lt_iff
       | apply Z.compare_gt_iff]; nia.
  - symmetry. apply Z.compare_lt_iff.
    replace (e2 - b) with ((e2 - e1 - 1) + (1 + (e1 - b))) by lia.
    rewrite pow2_split, (pow2_split 1) by lia.
    pose proof (pow2_pos (e1 - b) ltac:(lia)).
    pose proof (pow2_pos (e2 - e1 - 1) ltac:(lia)).
    specialize (Hl2 ltac:(lia)).
    assert (Zpos m1 < 2 * Zpos m2) as Hm
      by (change (2 ^ 53) with (2 * 2 ^ 52) in Hu1; lia).
    change (2 ^ 1) with 2.
    apply Z.lt_le_trans with (2 * Zpos m2 * 2 ^ (e1 - b)); [nia |].
    assert (0 <= Zpos m2 * 2 ^ (e1 - b)) by nia. nia.
  - symmetry. apply Z.compare_gt_iff.
    replace (e1 - b) with ((e1 - e2 - 1) + (1 + (e2 - b))) by lia.
    rewrite pow2_split, (pow2_split 1) by lia.
    pose proof (pow2_pos (e2 - b) ltac:(lia)).
    pose proof (pow2_pos (e1 - e2 - 1) ltac:(lia)).
    specialize (Hl1 ltac:(lia)).
    assert (Zpos m2 < 2 * Zpos m1) as Hm
      by (change (2 ^ 53) with (2 * 2 ^ 52) in Hu2; lia).
    change (2 ^ 1) with 2.
    apply Z.lt_le_trans with (2 * Zpos m1 * 2 ^ (e2 - b)); [nia |].
    assert (0 <= Zpos m1 * 2 ^ (e2 - b)) by nia. nia.
Qed.

(** The exponent a value would be rounded at is no larger than that of a
    number above it. *)
Lemma fexp_digits_le (m e : Z) (mr : positive) (er b : Z) :
  0 <= m -> bounded prec emax mr er = true ->
  b <= e -> b <= -1074 -> e <= er ->
  m * 2 ^ (e - b) <= Zpos mr * 2 ^ (er - b) ->
  fexp prec emax (Zdigits2 m + e) <= er.
Proof.
  intros Hm Hr Hbe Hb Hee Hle.
  destruct (bounded_inv mr er Hr) as (Her & Hd & Hn).
  assert (fexp prec emax (Zdigits2 (Zpos mr) + er) = er) as Hcan
    by (rewrite fexp_eq; lia).
  rewrite <- Hcan. apply fexp_mono.
  destruct (Z.eq_dec m 0) as [-> | Hm0].
  - cbn [Zdigits2]. pose proof (Zdigits2_pos (Zpos mr)). lia.
  - assert (0 < m) as Hmpos by lia.
    pose proof (pow2_pos (e - b) ltac:(lia)) as Hp.
    pose proof (pow2_pos (er - b) ltac:(lia)) as Hq.
    destruct (Zdigits2_bounds (Zpos mr) ltac:(lia)) as [_ Hub].
    assert (Zdigits2 (m * 2 ^ (e - b)) <= Zdigits2 (Zpos mr) + (er - b)) as H.
    { apply Zdigits2_le_iff; [nia |].
      rewrite pow2_split by (pose proof (Zdigits2_pos (Zpos mr)); lia).
      nia. }
    rewrite Zdigits2_mul_pow2 in H by lia. lia.
Qed.

Lemma next_multiple (m' e1 : Z) (mr : positive) (er b : Z) :
  b <= e1 -> e1 <= er ->
  m' * 2 ^ (e1 - b) < Zpos mr * 2 ^ (er - b) ->
  (m' + 1) * 2 ^ (e1 - b) <= Zpos mr * 2 ^ (er - b).
Proof.
  intros Hb He. replace (er - b) with ((er - e1) + (e1 - b)) by lia.
  rewrite pow2_split by lia.
  pose proof (pow2_pos (e1 - b) ltac:(lia)) as Hp.
  rewrite !Z.mul_assoc. intros H.
  apply Z.mul_lt_mono_pos_r in H; [| exact Hp].
  apply Z.mul_le_mono_nonneg_r; lia.
Qed.

(** Rounding a value that is at most a number [r] gives at most [r]. *)
Lemma round_mantissa_le (m e : Z) (l : location) (mr : positive) (er b : Z) :
  0 <= m -> bounded prec emax mr er = true ->
  b <= e -> b <= -1074 -> e <= er ->
  m * 2 ^ (e - b) <= Zpos mr * 2 ^ (er - b) ->
  (l <> loc_Exact -> m * 2 ^ (e - b) < Zpos mr * 2 ^ (er - b)) ->
  0 <= fst (round_mantissa m e l) /\
  snd (round_mantissa m e l) <= er /\
  fst (round_mantissa m e l) * 2 ^ (snd (round_mantissa m e l) - b)
    <= Zpos mr * 2 ^ (er - b).
Proof.
  intros Hm Hr Hbe Hb Hee Hle Hlt.
  destruct (round_mantissa_spec m e l Hm) as (k1 & m1 & k2 & Hk1 & Hk2 & Hm1 & ->).
  cbn [fst snd].
  set (R := Zpos mr * 2 ^ (er - b)) in *.
  pose proof (fexp_digits_le m e mr er b Hm Hr Hbe Hb Hee Hle) as Hf1.
  assert (0 <= k1 /\ e + k1 <= er) as [Hk1pos He1] by lia.
  destruct (div_pow2_bounds m k1 Hm Hk1pos) as [[Hfloor _] Hstrict].
  pose proof (pow2_pos (e - b) ltac:(lia)) as Hpe.
  pose proof (pow2_pos k1 Hk1pos) as Hpk1.
  assert (2 ^ (e + k1 - b) = 2 ^ k1 * 2 ^ (e - b)) as Hsplit1
    by (rewrite <- pow2_split by lia; f_equal; lia).
  assert (0 <= m / 2 ^ k1) as Hq1 by (apply Z.div_pos; lia).
  assert (m / 2 ^ k1 * 2 ^ (e + k1 - b) <= R) as Hq1R by (rewrite Hsplit1; nia).
  assert (0 <= m1 /\ m1 * 2 ^ (e + k1 - b) <= R) as [Hm1pos Hm1R].
  { destruct Hm1 as [-> | [-> Hwhy]]; [split; assumption |].
    split; [lia |]. apply next_multiple; [lia | lia |].
    destruct Hwhy as [Hl | Hmod].
    - specialize (Hlt Hl). rewrite Hsplit1. nia.
    - specialize (Hstrict Hmod). rewrite Hsplit1.
      apply Z.lt_le_trans with (m * 2 ^ (e - b)); [nia | exact Hle]. }
  pose proof (fexp_digits_le m1 (e + k1) mr er b Hm1pos Hr ltac:(lia) Hb He1
                Hm1R) as Hf2.
  assert (0 <= k2 /\ e + k1 + k2 <= er) as [Hk2pos He2] by lia.
  destruct (div_pow2_bounds m1 k2 Hm1pos Hk2pos) as [[Hfloor2 _] _].
  pose proof (pow2_pos k2 Hk2pos) as Hpk2.
  pose proof (pow2_pos (e + k1 - b) ltac:(lia)) as Hpe1.
  assert (2 ^ (e + k1 + k2 - b) = 2 ^ k2 * 2 ^ (e + k1 - b)) as Hsplit2
    by (rewrite <- pow2_split by lia; f_equal; lia).
  repeat split; [apply Z.div_pos; lia | exact He2 |].
  rewrite Hsplit2. apply Z.le_trans with (m1 * 2 ^ (e + k1 - b)); [nia | exact Hm1R].
Qed.

End Values.

Section RoundUp.

(** Cutting a value down to its rounding exponent does not go below a
    number that the value is at least. *)
Lemma truncate_ge (m e : Z) (mr : positive) (er b : Z) :
  0 < m -> bounded prec emax mr er = true ->
  b <= e -> b <= -1074 ->
  e <= fexp prec emax (Zdigits2 m + e) ->
  Zpos mr * 2 ^ (er - b) <= m * 2 ^ (e - b) ->
  Zpos mr * 2 ^ (er - b) <=
  (m / 2 ^ (fexp prec emax (Zdigits2 m + e) - e))
  * 2 ^ (fexp prec emax (Zdigits2 m + e) - b).
Proof.
  intros Hm Hr Hbe Hb Hn Hle.
  set (e' := fexp prec emax (Zdigits2 m + e)) in *.
  set (k := e' - e). set (q := m / 2 ^ k).
  set (R := Zpos mr * 2 ^ (er - b)) in *.
  assert (0 <= k) as Hk by (unfold k; lia).
  destruct (div_pow2_bounds m k ltac:(lia) Hk) as [[Hlo Hhi] _].
  fold q in Hlo, Hhi.
  pose proof (pow2_pos k Hk) as Hpk.
  pose proof (pow2_pos (e - b) ltac:(lia)) as Hpe.
  assert (2 ^ (e' - b) = 2 ^ k * 2 ^ (e - b)) as Hsplit
    by (rewrite <- pow2_split by lia; f_equal; unfold k; lia).
  destruct (Z.le_gt_cases R (q * 2 ^ (e' - b))) as [Hok | Hbad];
    [exact Hok | exfalso].
  destruct (bounded_inv mr er Hr) as (Her & _ & _).
  destruct (bounded_mantissa mr er Hr) as (Hmr & _).
  assert (e' <= er) as He'.
  { destruct (Z.eq_dec e' (-1074)) as [-> | Hne]; [lia |].
    assert (Zdigits2 m = k + 53) as Hd
      by (unfold k, e' in *; rewrite fexp_eq in *; lia).
    destruct (Zdigits2_bounds m Hm) as [Hlow _]. rewrite Hd in Hlow.
    replace (k + 53 - 1) with (52 + k) in Hlow by lia.
    rewrite pow2_split in Hlow by lia.
    assert (2 ^ 52 <= q) as Hq
      by (apply Z.div_le_lower_bound; [exact Hpk | lia]).
    pose proof (pow2_pos (e' - b) ltac:(unfold k in *; lia)) as Hpe'.
    pose proof (pow2_pos (er - b) ltac:(lia)) as Hper.
    assert (2 ^ (52 + (e' - b)) < 2 ^ (53 + (er - b))) as Hpow.
    { rewrite !pow2_split by (unfold k in *; lia).
      apply Z.le_lt_trans with (q * 2 ^ (e' - b)); [nia |].
      apply Z.lt_trans with R; [exact Hbad |]. unfold R. nia. }
    apply Z.pow_lt_mono_r_iff in Hpow; lia. }
  pose proof (next_multiple q e' mr er b ltac:(unfold k in *; lia) He' Hbad)
    as Hnext.
  fold R in Hnext. rewrite Hsplit in Hnext. nia.
Qed.

(** Rounding a value that is at least a number [r] gives at least [r]. *)
Lemma round_mantissa_ge (m e : Z) (l : location) (mr : positive) (er b : Z) :
  0 < m -> bounded prec emax mr er = true ->
  b <= e -> b <= -1074 ->
  e <= fexp prec emax (Zdigits2 m + e) ->
  Zpos mr * 2 ^ (er - b) <= m * 2 ^ (e - b) ->
  Zpos mr * 2 ^ (er - b) <=
  fst (round_mantissa m e l) * 2 ^ (snd (round_mantissa m e l) - b).
Proof.
  intros Hm Hr Hbe Hb Hn Hle.
  pose proof (truncate_ge m e mr er b Hm Hr Hbe Hb Hn Hle) as H1.
  destruct (round_mantissa_spec m e l ltac:(lia))
    as (k1 & m1 & k2 & Hk1 & Hk2 & Hm1 & ->).
  cbn [fst snd].
  set (R := Zpos mr * 2 ^ (er - b)) in *.
  assert (0 < R) as HR
    by (destruct (bounded_inv mr er Hr) as (Her & _);
        pose proof (pow2_pos (er - b) ltac:(lia)); unfold R; nia).
  assert (k1 = fexp prec emax (Zdigits2 m + e) - e) as Hk1' by lia.
  rewrite <- Hk1' in H1.
  replace (fexp prec emax (Zdigits2 m + e)) with (e + k1) in H1 by lia.
  pose proof (pow2_pos (e + k1 - b) ltac:(lia)) as Hp1.
  assert (R <= m1 * 2 ^ (e + k1 - b)) as Hm1R by (destruct Hm1 as [-> | [-> _]]; nia).
  assert (0 < m1) as Hm1pos by nia.
  destruct (Z.le_gt_cases (fexp prec emax (Zdigits2 m1 + (e + k1))) (e + k1))
    as [Hno | Hshift].
  - replace k2 with 0 by lia. rewrite Z.pow_0_r, Z.div_1_r, Z.add_0_r.
    exact Hm1R.
  - pose proof (truncate_ge m1 (e + k1) mr er b Hm1pos Hr ltac:(lia) Hb
                  ltac:(lia) Hm1R) as H2.
    replace k2 with (fexp prec emax (Zdigits2 m1 + (e + k1)) - (e + k1))
      by lia.
    replace (e + k1 + (fexp prec emax (Zdigits2 m1 + (e + k1)) - (e + k1)))
      with (fexp prec emax (Zdigits2 m1 + (e + k1))) by lia.
    exact H2.
Qed.

End RoundUp.

Section RoundedResults.

Lemma round_mantissa_nonneg (m e : Z) (l : location) :
  0 <= m -> 0 <= fst (round_mantissa m e l).
Proof.
  intros Hm.
  destruct (round_mantissa_spec m e l Hm) as (k1 & m1 & k2 & Hk1 & Hk2 & Hm1 & ->).
  cbn [fst].
  assert (0 <= m / 2 ^ k1) by (apply Z.div_pos; [lia | apply pow2_pos; lia]).
  apply Z.div_pos; [lia | apply pow2_pos; lia].
Qed.

Lemma binary_round_aux_sign (sx : bool) (m e : Z) (l : location) :
  0 <= m ->
  binary_round_aux prec emax sx m e l = S754_zero sx \/
  binary_round_aux prec emax sx m e l = S754_infinity sx \/
  exists M E, binary_round_aux prec emax sx m e l = S754_finite sx M E.
Proof.
  intros Hm. rewrite binary_round_aux_mantissa.
  pose proof (round_mantissa_nonneg m e l Hm) as H.
  destruct (fst (round_mantissa m e l)) as [| M | M]; [auto | | lia].
  destruct (snd (round_mantissa m e l) <=? 971); eauto.
Qed.

Lemma binary_round_aux_nonneg (m e : Z) (l : location) :
  0 <= m -> sf_nonneg (binary_round_aux prec emax false m e l) = true.
Proof.
  intros Hm.
  destruct (binary_round_aux_sign false m e l Hm) as [-> | [-> | (M & E & ->)]];
    reflexivity.
Qed.

Lemma binary_round_aux_nonpos (m e : Z) (l : location) :
  0 <= m -> sf_nonpos (binary_round_aux prec emax true m e l) = true.
Proof.
  intros Hm.
  destruct (binary_round_aux_sign true m e l Hm) as [-> | [-> | (M & E & ->)]];
    reflexivity.
Qed.

(** A rounded value that is at most the number [r] compares so. *)
Lemma binary_round_aux_leb (m e : Z) (l : location) (mr : positive) (er b : Z) :
  0 <= m -> bounded prec emax mr er = true ->
  b <= e -> b <= -1074 -> e <= er ->
  m * 2 ^ (e - b) <= Zpos mr * 2 ^ (er - b) ->
  (l <> loc_Exact -> m * 2 ^ (e - b) < Zpos mr * 2 ^ (er - b)) ->
  valid_binary (binary_round_aux prec emax false m e l) = true ->
  SFleb (binary_round_aux prec emax false m e l) (S754_finite false mr er)
  = true.
Proof.
  intros Hm Hr Hbe Hb Hee Hle Hlt.
  destruct (round_mantissa_le m e l mr er b Hm Hr Hbe Hb Hee Hle Hlt)
    as (HM & HE & Hval).
  rewrite binary_round_aux_mantissa.
  destruct (bounded_inv mr er Hr) as (Her & _).
  destruct (fst (round_mantissa m e l)) as [| M | M]; [reflexivity | | lia].
  replace (snd (round_mantissa m e l) <=? 971) with true
    by (symmetry; apply Z.leb_le; lia).
  cbn [valid_binary]. intros Hvalid. unfold SFleb.
  destruct (bounded_inv M _ Hvalid) as (HEb & _).
  assert (Zpos M * 2 ^ (snd (round_mantissa m e l) - -1074)
          <= Zpos mr * 2 ^ (er - -1074)) as Hval'.
  { replace (snd (round_mantissa m e l) - b)
      with ((snd (round_mantissa m e l) - -1074) + (-1074 - b)) in Hval by lia.
    replace (er - b) with ((er - -1074) + (-1074 - b)) in Hval by lia.
    rewrite !pow2_split, !Z.mul_assoc in Hval by lia.
    apply Z.mul_le_mono_pos_r in Hval; [exact Hval | apply pow2_pos; lia]. }
  rewrite (SFcompare_finite_pos M _ mr er (-1074) Hvalid Hr ltac:(lia)).
  destruct (Z.compare_spec (Zpos M * 2 ^ (snd (round_mantissa m e l) - -1074))
              (Zpos mr * 2 ^ (er - -1074))); [reflexivity | reflexivity | lia].
Qed.

(** A rounded value that is at least the number [r] compares so. *)
Lemma binary_round_aux_geb (m e : Z) (l : location) (mr : positive) (er : Z) :
  0 < m -> bounded prec emax mr er = true ->
  -1074 <= e ->
  e <= fexp prec emax (Zdigits2 m + e) ->
  Zpos mr * 2 ^ (er - -1074) <= m * 2 ^ (e - -1074) ->
  valid_binary (binary_round_aux prec emax false m e l) = true ->
  SFleb (S754_finite false mr er) (binary_round_aux prec emax false m e l)
  = true.
Proof.
  intros Hm Hr He Hn Hle.
  pose proof (round_mantissa_ge m e l mr er (-1074) Hm Hr He ltac:(lia) Hn Hle)
    as Hval.
  rewrite binary_round_aux_mantissa.
  destruct (bounded_inv mr er Hr) as (Her & _).
  pose proof (pow2_pos (er - -1074) ltac:(lia)) as Hp.
  destruct (fst (round_mantissa m e l)) as [| M | M].
  - exfalso. nia.
  - destruct (snd (round_mantissa m e l) <=? 971); [| reflexivity].
    cbn [valid_binary]. intros Hvalid. unfold SFleb.
    rewrite (SFcompare_finite_pos mr er M _ (-1074) Hr Hvalid ltac:(lia)).
    destruct (Z.compare_spec (Zpos mr * 2 ^ (er - -1074))
                (Zpos M * 2 ^ (snd (round_mantissa m e l) - -1074)));
      [reflexivity | reflexivity | lia].
  - exfalso.
    assert (0 <= snd (round_mantissa m e l) - -1074 \/
            snd (round_mantissa m e l) - -1074 < 0) as [Hs | Hs] by lia.
    + pose proof (pow2_pos _ Hs). nia.
    + rewrite (Z.pow_neg_r 2 _ Hs) in Hval. nia.
Qed.

Lemma pos_iter_xO (m d : positive) :
  Zpos (Pos.iter xO m d) = Zpos m * 2 ^ Zpos d.
Proof.
  induction d as [| d IH] using Pos.peano_ind.
  - cbn [Pos.iter]. rewrite Z.pow_1_r. lia.
  - rewrite Pos.iter_succ, Pos2Z.inj_succ, Z.pow_succ_r by lia.
    rewrite Pos2Z.inj_xO, IH. lia.
Qed.

Lemma shl_align_spec (mx : positive) (ex ex' : Z) :
  snd (shl_align mx ex ex') = Z.min ex ex' /\
  Zpos (fst (shl_align mx ex ex')) = Zpos mx * 2 ^ (ex - Z.min ex ex').
Proof.
  unfold shl_align. destruct (ex' - ex) as [| d | d] eqn:E; cbn [fst snd].
  - replace (Z.min ex ex') with ex by lia. rewrite Z.sub_diag. lia.
  - replace (Z.min ex ex') with ex by lia. rewrite Z.sub_diag. lia.
  - replace (Z.min ex ex') with ex' by lia. split; [reflexivity |].
    rewrite pos_iter_xO. f_equal. f_equal. lia.
Qed.

(** [binary_round] rounds the same value at an exponent that does not
    exceed the rounding exponent. *)
Lemma binary_round_spec (sx : bool) (mx : positive) (ex : Z) :
  exists (mz : positive) (ez : Z),
    binary_round prec emax sx mx ex =
    binary_round_aux prec emax sx (Zpos mz) ez loc_Exact /\
    ez = Z.min ex (fexp prec emax (Zdigits2 (Zpos mx) + ex)) /\
    Zpos mz = Zpos mx * 2 ^ (ex - ez) /\
    ez <= fexp prec emax (Zdigits2 (Zpos mz) + ez).
Proof.
  unfold binary_round.
  pose proof (shl_align_spec mx ex (fexp prec emax (Zpos (digits2_pos mx) + ex)))
    as [He Hm].
  destruct (shl_align mx ex _) as [mz ez]. cbn [fst snd] in He, Hm.
  change (Zpos (digits2_pos mx)) with (Zdigits2 (Zpos mx)) in *.
  exists mz, ez. subst ez.
  set (ez := Z.min ex (fexp prec emax (Zdigits2 (Zpos mx) + ex))) in *.
  repeat split; try assumption.
  rewrite Hm, Zdigits2_mul_pow2 by lia.
  replace (Zdigits2 (Zpos mx) + (ex - ez) + ez)
    with (Zdigits2 (Zpos mx) + ex) by lia.
  lia.
Qed.

End RoundedResults.

Section Operations.

Lemma Prim2SF_one : Prim2SF 1 = sf_one.
Proof. reflexivity. Qed.

Lemma bounded_one : bounded prec emax 4503599627370496 (-52) = true.
Proof. reflexivity. Qed.

Lemma Zdigits2_mono (a b : Z) : 0 < a -> a <= b -> Zdigits2 a <= Zdigits2 b.
Proof.
  intros Ha Hab. rewrite !Zdigits2_log2 by lia.
  pose proof (Z.log2_le_mono a b Hab). lia.
Qed.

Lemma SFltb_finite_pos (m1 : positive) (e1 : Z) (m2 : positive) (e2 : Z) :
  bounded prec emax m1 e1 = true -> bounded prec emax m2 e2 = true ->
  SFltb (S754_finite false m1 e1) (S754_finite false m2 e2) = true ->
  Zpos m1 * 2 ^ (e1 - -1074) < Zpos m2 * 2 ^ (e2 - -1074).
Proof.
  intros H1 H2. unfold SFltb.
  rewrite (SFcompare_finite_pos m1 e1 m2 e2 (-1074) H1 H2 ltac:(lia)).
  destruct (Z.compare_spec (Zpos m1 * 2 ^ (e1 - -1074))
              (Zpos m2 * 2 ^ (e2 - -1074))); [discriminate | auto | discriminate].
Qed.

Lemma SFleb_finite_pos (m1 : positive) (e1 : Z) (m2 : positive) (e2 : Z) :
  bounded prec emax m1 e1 = true -> bounded prec emax m2 e2 = true ->
  SFleb (S754_finite false m1 e1) (S754_finite false m2 e2) = true ->
  Zpos m1 * 2 ^ (e1 - -1074) <= Zpos m2 * 2 ^ (e2 - -1074).
Proof.
  intros H1 H2. unfold SFleb.
  rewrite (SFcompare_finite_pos m1 e1 m2 e2 (-1074) H1 H2 ltac:(lia)).
  destruct (Z.compare_spec (Zpos m1 * 2 ^ (e1 - -1074))
              (Zpos m2 * 2 ^ (e2 - -1074))); [lia | lia | discriminate].
Qed.

Lemma SFleb_refl_finite (s : bool) (m : positive) (e : Z) :
  SFleb (S754_finite s m e) (S754_finite s m e) = true.
Proof.
  unfold SFleb. cbn [SFcompare].
  rewrite Z.compare_refl, Pos.compare_cont_refl. destruct s; reflexivity.
Qed.

(** The magnitude of a smaller positive number is no larger. *)
Lemma magnitude_le (m1 : positive) (e1 : Z) (m2 : positive) (e2 : Z) :
  -1074 <= e1 -> -1074 <= e2 ->
  Zpos m1 * 2 ^ (e1 - -1074) <= Zpos m2 * 2 ^ (e2 - -1074) ->
  Zdigits2 (Zpos m1) + e1 <= Zdigits2 (Zpos m2) + e2.
Proof.
  intros H1 H2 Hle.
  pose proof (pow2_pos (e1 - -1074) ltac:(lia)).
  assert (0 < Zpos m1 * 2 ^ (e1 - -1074)) as Hpos by nia.
  pose proof (Zdigits2_mono _ _ Hpos Hle) as Hd.
  rewrite !Zdigits2_mul_pow2 in Hd by lia. lia.
Qed.

Lemma SFdiv_core_binary_spec (m1 e1 m2 e2 : Z) :
  0 < m1 -> 0 < m2 ->
  exists (q : Z) (l : location),
    let e' := Z.min (fexp prec emax (Zdigits2 m1 + e1 - (Zdigits2 m2 + e2)))
                    (e1 - e2) in
    SFdiv_core_binary prec emax m1 e1 m2 e2 = (q, e', l) /\
    q = (m1 * 2 ^ (e1 - e2 - e')) / m2.
Proof.
  intros H1 H2. unfold SFdiv_core_binary.
  set (e' := Z.min (fexp prec emax (Zdigits2 m1 + e1 - (Zdigits2 m2 + e2)))
                   (e1 - e2)).
  assert (0 <= e1 - e2 - e') as Hs by (unfold e'; lia).
  set (m' := match e1 - e2 - e' with
             | 0 => m1 | Z.pos _ => Z.shiftl m1 (e1 - e2 - e') | Z.neg _ => 0
             end).
  assert (m' = m1 * 2 ^ (e1 - e2 - e')) as Hm'.
  { unfold m'. destruct (e1 - e2 - e') as [| p | p] eqn:E.
    - rewrite Z.pow_0_r. lia.
    - apply Z.shiftl_mul_pow2. lia.
    - lia. }
  unfold Z.div. rewrite <- Hm'.
  destruct (Z.div_eucl m' m2) as [q r]. eexists q, _. cbn zeta.
  split; reflexivity.
Qed.

(** A quotient of positive numbers, the smaller over the larger, is zero
    or a positive number that is at most 1. *)
Lemma SFdiv_below_one (ms : positive) (es : Z) (mt : positive) (et : Z) :
  bounded prec emax ms es = true -> bounded prec emax mt et = true ->
  SFltb (S754_finite false ms es) (S754_finite false mt et) = true ->
  let p := SF64div (S754_finite false ms es) (S754_finite false mt et) in
  valid_binary p = true ->
  (p = S754_zero false \/ exists mp ep, p = S754_finite false mp ep) /\
  SFleb p sf_one = true.
Proof.
  intros Hs Ht Hlt. cbn zeta. unfold SF64div. cbn [SFdiv xorb].
  pose proof (SFltb_finite_pos ms es mt et Hs Ht Hlt) as Hval.
  destruct (bounded_inv ms es Hs) as (Hes & _).
  destruct (bounded_inv mt et Ht) as (Het & _).
  destruct (SFdiv_core_binary_spec (Zpos ms) es (Zpos mt) et
              ltac:(lia) ltac:(lia)) as (q & l & Hcore & Hq).
  cbn zeta in Hcore, Hq. rewrite Hcore.
  set (e' := Z.min (fexp prec emax (Zdigits2 (Zpos ms) + es
                                    - (Zdigits2 (Zpos mt) + et))) (es - et)) in *.
  pose proof (magnitude_le ms es mt et ltac:(lia) ltac:(lia) ltac:(lia)) as Hmag.
  assert (e' <= -53) as He' by (unfold e'; rewrite fexp_eq; lia).
  assert (0 <= es - et - e') as Hsh by (unfold e'; lia).
  set (b := Z.min e' (-1074)).
  pose proof (pow2_pos (es - et - e') Hsh) as Hp1.
  assert (0 <= q) as Hq0 by (rewrite Hq; apply Z.div_pos; nia).
  assert (q * 2 ^ (e' - b) < 4503599627370496 * 2 ^ (-52 - b)) as Hstrict.
  { pose proof (Z.mul_div_le (Zpos ms * 2 ^ (es - et - e')) (Zpos mt)
                  ltac:(lia)) as Hfloor.
    rewrite <- Hq in Hfloor.
    pose proof (pow2_pos (e' - b) ltac:(unfold b; lia)) as Hp2.
    pose proof (pow2_pos (et - -1074) ltac:(lia)) as Hp3.
    pose proof (pow2_pos (- b) ltac:(unfold b; lia)) as Hp4.
    assert (2 ^ (es - et - e') * 2 ^ (e' - b) * 2 ^ (et - -1074)
            = 2 ^ (es - -1074) * 2 ^ (- b)) as Hpow
      by (rewrite <- !pow2_split by (unfold b; lia); f_equal; lia).
    assert (4503599627370496 * 2 ^ (-52 - b) = 2 ^ (- b)) as Hone
      by (change 4503599627370496 with (2 ^ 52);
          rewrite <- pow2_split by (unfold b; lia); f_equal; lia).
    rewrite Hone.
    apply Z.mul_lt_mono_pos_r with (Zpos mt * 2 ^ (et - -1074)); [nia |].
    apply Z.le_lt_trans
      with (Zpos ms * 2 ^ (es - et - e') * 2 ^ (e' - b) * 2 ^ (et - -1074)).
    - assert (0 <= 2 ^ (e' - b) * 2 ^ (et - -1074)) by nia. nia.
    - replace (Zpos ms * 2 ^ (es - et - e') * 2 ^ (e' - b) * 2 ^ (et - -1074))
        with (Zpos ms * (2 ^ (es - et - e') * 2 ^ (e' - b) * 2 ^ (et - -1074)))
        by ring.
      rewrite Hpow. nia. }
  assert (b <= e' /\ b <= -1074) as [Hb1 Hb2] by (unfold b; lia).
  intros Hvalid.
  pose proof (binary_round_aux_leb q e' l 4503599627370496 (-52) b Hq0
                bounded_one Hb1 Hb2 ltac:(lia) ltac:(lia) ltac:(intros; lia)
                Hvalid) as Hle.
  split; [| exact Hle].
  destruct (binary_round_aux_sign false q e' l Hq0)
    as [-> | [Hinf | (M & E & ->)]]; eauto.
  rewrite Hinf in Hle. discriminate.
Qed.

End Operations.

Section Signs.

Lemma binary_round_nonneg (m : positive) (e : Z) :
  sf_nonneg (binary_round prec emax false m e) = true.
Proof.
  destruct (binary_round_spec false m e) as (mz & ez & -> & _).
  apply binary_round_aux_nonneg. lia.
Qed.

Lemma binary_round_nonpos (m : positive) (e : Z) :
  sf_nonpos (binary_round prec emax true m e) = true.
Proof.
  destruct (binary_round_spec true m e) as (mz & ez & -> & _).
  apply binary_round_aux_nonpos. lia.
Qed.

Lemma SFmul_finite_nonneg (mx : positive) (ex : Z) (y : spec_float) :
  sf_nonneg y = true ->
  sf_nonneg (SF64mul (S754_finite false mx ex) y) = true.
Proof.
  unfold SF64mul.
  destruct y as [sy | sy | | sy my ey]; cbn [SFmul sf_nonneg xorb];
    try discriminate; try (destruct sy; (discriminate || reflexivity)).
  destruct sy; [discriminate |]. intros _. cbn [xorb].
  apply binary_round_aux_nonneg. lia.
Qed.

Lemma SFdiv_finite_nonneg (x : spec_float) (mt : positive) (et : Z) :
  sf_nonneg x = true ->
  sf_nonneg (SF64div x (S754_finite false mt et)) = true.
Proof.
  unfold SF64div.
  destruct x as [sx | sx | | sx mx ex]; cbn [SFdiv sf_nonneg xorb];
    try discriminate; try (destruct sx; (discriminate || reflexivity)).
  destruct sx; [discriminate |]. intros _. cbn [xorb].
  destruct (SFdiv_core_binary_spec (Zpos mx) ex (Zpos mt) et
              ltac:(lia) ltac:(lia)) as (q & l & Hcore & Hq).
  cbn zeta in Hcore, Hq. rewrite Hcore.
  apply binary_round_aux_nonneg. rewrite Hq. apply Z.div_pos; [| lia].
  destruct (Z.le_gt_cases 0 (ex - et - Z.min (fexp prec emax
              (Zdigits2 (Zpos mx) + ex - (Zdigits2 (Zpos mt) + et))) (ex - et)))
    as [Hs | Hs].
  - pose proof (pow2_pos _ Hs). nia.
  - rewrite Z.pow_neg_r by lia. lia.
Qed.

Lemma SFsqrt_nonneg (x : spec_float) :
  sf_nonneg x = true -> sf_nonneg (SF64sqrt x) = true.
Proof.
  unfold SF64sqrt.
  destruct x as [sx | sx | | sx mx ex]; cbn [SFsqrt sf_nonneg];
    try discriminate; try (destruct sx; (discriminate || reflexivity)).
  destruct sx; [discriminate |]. intros _.
  unfold SFsqrt_core_binary.
  set (m' := match _ - _ with 0 => _ | Z.pos _ => _ | Z.neg _ => _ end).
  assert (0 <= m') as Hm'.
  { unfold m'. destruct (ex - 2 * _) as [| p | p]; try lia.
    rewrite Z.shiftl_mul_pow2 by lia. pose proof (pow2_pos (Z.pos p)). nia. }
  pose proof (Z.sqrtrem_spec m' Hm') as Hsq.
  destruct (Z.sqrtrem m') as [q r].
  apply binary_round_aux_nonneg. nia.
Qed.

End Signs.

Section AddSub.

(** Aligned mantissas carry the values. *)
Lemma aligned_value (m : positive) (e ez : Z) :
  -1074 <= ez -> ez <= e ->
  Zpos (fst (shl_align m e ez)) * 2 ^ (ez - -1074) = Zpos m * 2 ^ (e - -1074).
Proof.
  intros H1 H2. destruct (shl_align_spec m e ez) as [_ ->].
  replace (Z.min e ez) with ez by lia.
  rewrite <- Z.mul_assoc, <- pow2_split by lia. f_equal. f_equal. lia.
Qed.

Lemma binary_round_value (sx : bool) (m : positive) (e : Z) :
  -1074 <= e ->
  exists (mz : positive) (ez : Z),
    binary_round prec emax sx m e =
    binary_round_aux prec emax sx (Zpos mz) ez loc_Exact /\
    -1074 <= ez <= e /\
    ez <= fexp prec emax (Zdigits2 (Zpos mz) + ez) /\
    Zpos mz * 2 ^ (ez - -1074) = Zpos m * 2 ^ (e - -1074).
Proof.
  intros He.
  destruct (binary_round_spec sx m e) as (mz & ez & Hr & Hez & Hmz & Hn).
  exists mz, ez. rewrite fexp_eq in Hez.
  repeat split; try assumption; try lia.
  rewrite Hmz, <- Z.mul_assoc, <- pow2_split by lia. f_equal. f_equal. lia.
Qed.

(** Taking a non-negative number away gives no more. *)
Lemma SFsub_le_left (mp : positive) (ep : Z) (x : spec_float) :
  bounded prec emax mp ep = true ->
  sf_nonneg x = true -> valid_binary x = true ->
  valid_binary (SF64sub (S754_finite false mp ep) x) = true ->
  SFleb (SF64sub (S754_finite false mp ep) x) (S754_finite false mp ep) = true.
Proof.
  intros Hp Hx Hvx. unfold SF64sub.
  destruct (bounded_inv mp ep Hp) as (Hep & _).
  destruct x as [sx | sx | | sx mx ex]; cbn [SFsub sf_nonneg] in *;
    try discriminate.
  - intros _. apply SFleb_refl_finite.
  - destruct sx; [discriminate | reflexivity].
  - destruct sx; [discriminate |]. cbn [cond_Zopp negb].
    destruct (bounded_inv mx ex Hvx) as (Hex & _).
    set (ez := Z.min ep ex).
    pose proof (aligned_value mp ep ez ltac:(unfold ez; lia)
                  ltac:(unfold ez; lia)) as Hap.
    pose proof (aligned_value mx ex ez ltac:(unfold ez; lia)
                  ltac:(unfold ez; lia)) as Hax.
    set (ap := Zpos (fst (shl_align mp ep ez))) in *.
    set (ax := Zpos (fst (shl_align mx ex ez))) in *.
    assert (-1074 <= ez <= ep) as Hez by (unfold ez; lia).
    destruct (ap - ax) as [| m | m] eqn:Ediff; cbn [binary_normalize].
    + reflexivity.
    + destruct (binary_round_value false m ez ltac:(lia))
        as (mz & ez' & -> & Hez' & Hn & Hval).
      intros Hvalid.
      assert (Zpos mz * 2 ^ (ez' - -1074) <= Zpos mp * 2 ^ (ep - -1074))
        as Hle.
      { rewrite Hval, <- Hap.
        apply Z.mul_le_mono_nonneg_r; [apply Z.lt_le_incl, pow2_pos; lia |].
        unfold ax in *. lia. }
      exact (binary_round_aux_leb (Zpos mz) ez' loc_Exact mp ep (-1074)
               ltac:(lia) Hp ltac:(lia) ltac:(lia) ltac:(lia) Hle
               ltac:(congruence) Hvalid).
    + pose proof (binary_round_nonpos m ez) as Hneg. intros _.
      destruct (binary_round prec emax true m ez) as [s | s | | s M E];
        cbn [sf_nonpos] in Hneg; try discriminate; subst; reflexivity.
Qed.

(** Adding a non-negative number gives no less. *)
Lemma SFadd_ge_left (mp : positive) (ep : Z) (x : spec_float) :
  bounded prec emax mp ep = true ->
  sf_nonneg x = true -> valid_binary x = true ->
  valid_binary (SF64add (S754_finite false mp ep) x) = true ->
  SFleb (S754_finite false mp ep) (SF64add (S754_finite false mp ep) x) = true.
Proof.
  intros Hp Hx Hvx. unfold SF64add.
  destruct (bounded_inv mp ep Hp) as (Hep & _).
  destruct x as [sx | sx | | sx mx ex]; cbn [SFadd sf_nonneg] in *;
    try discriminate.
  - intros _. apply SFleb_refl_finite.
  - destruct sx; [discriminate | reflexivity].
  - destruct sx; [discriminate |]. cbn [cond_Zopp].
    destruct (bounded_inv mx ex Hvx) as (Hex & _).
    set (ez := Z.min ep ex).
    pose proof (aligned_value mp ep ez ltac:(unfold ez; lia)
                  ltac:(unfold ez; lia)) as Hap.
    set (ap := fst (shl_align mp ep ez)) in *.
    set (ax := fst (shl_align mx ex ez)) in *.
    assert (-1074 <= ez <= ep) as Hez by (unfold ez; lia).
    change (Zpos ap + Zpos ax) with (Zpos (ap + ax)).
    cbn [binary_normalize].
    destruct (binary_round_value false (ap + ax) ez ltac:(lia))
      as (mz & ez' & -> & Hez' & Hn & Hval).
    intros Hvalid.
    assert (Zpos mp * 2 ^ (ep - -1074) <= Zpos mz * 2 ^ (ez' - -1074))
      as Hle.
    { rewrite Hval, <- Hap.
      apply Z.mul_le_mono_nonneg_r; [apply Z.lt_le_incl, pow2_pos; lia | lia]. }
    exact (binary_round_aux_geb (Zpos mz) ez' loc_Exact mp ep
             ltac:(lia) Hp ltac:(lia) Hn Hle Hvalid).
Qed.

(** One minus a number that is at most one is not negative. *)
Lemma SFsub_one_nonneg (mp : positive) (ep : Z) :
  bounded prec emax mp ep = true ->
  SFleb (S754_finite false mp ep) sf_one = true ->
  sf_nonneg (SF64sub sf_one (S754_finite false mp ep)) = true.
Proof.
  intros Hp Hle. unfold SF64sub, sf_one in *. cbn [SFsub cond_Zopp].
  destruct (bounded_inv mp ep Hp) as (Hep & _).
  pose proof (SFleb_finite_pos mp ep _ _ Hp bounded_one Hle) as Hval.
  set (ez := Z.min (-52) ep).
  pose proof (aligned_value mp ep ez ltac:(unfold ez; lia)
                ltac:(unfold ez; lia)) as Hap.
  pose proof (aligned_value 4503599627370496 (-52) ez ltac:(unfold ez; lia)
                ltac:(unfold ez; lia)) as Ha1.
  set (ap := Zpos (fst (shl_align mp ep ez))) in *.
  set (a1 := Zpos (fst (shl_align 4503599627370496 (-52) ez))) in *.
  assert (ap <= a1) as Hdiff.
  { pose proof (pow2_pos (ez - -1074) ltac:(unfold ez; lia)) as Hpz.
    apply Z.mul_le_mono_pos_r with (2 ^ (ez - -1074)); [exact Hpz |]. lia. }
  destruct (a1 - ap) as [| m | m] eqn:E; cbn [binary_normalize];
    [reflexivity | apply binary_round_nonneg | lia].
Qed.

End AddSub.

Section Interval.

Lemma SFltb_zero_inv (x : spec_float) :
  SFltb (S754_zero false) x = true ->
  x = S754_infinity false \/ exists m e, x = S754_finite false m e.
Proof.
  unfold SFltb. destruct x as [s | s | | s m e]; cbn [SFcompare];
    try discriminate; destruct s; try discriminate; eauto.
Qed.

Lemma SFltb_finite_inv (m : positive) (e : Z) (y : spec_float) :
  SFltb (S754_finite false m e) y = true ->
  y = S754_infinity false \/ exists m' e', y = S754_finite false m' e'.
Proof.
  unfold SFltb. destruct y as [s | s | | s m' e']; cbn [SFcompare];
    try discriminate; destruct s; try discriminate; eauto.
Qed.

Lemma SFltb_infinity_inv (x : spec_float) :
  SFltb x (S754_infinity false) = true -> x <> S754_infinity false.
Proof. intros H ->. discriminate. Qed.

(** The half-width [z * sqrt(p * (1 - p) / t)] is zero, positive or plus
    infinity, where [p] is the quotient of [0 < s < t]. *)
Lemma half_width_nonneg (S T Zq : spec_float) :
  valid_binary S = true -> valid_binary T = true ->
  valid_binary (SF64div S T) = true ->
  SFltb (S754_zero false) S = true -> SFltb S T = true ->
  SFltb (S754_zero false) Zq = true -> SFltb Zq (S754_infinity false) = true ->
  (SF64div S T = S754_zero false \/
   exists mp ep, SF64div S T = S754_finite false mp ep) /\
  sf_nonneg
    (SF64mul Zq
       (SF64sqrt
          (SF64div (SF64mul (SF64div S T) (SF64sub sf_one (SF64div S T))) T)))
  = true.
Proof.
  intros HvS HvT HvP HS HST HZ HZinf.
  destruct (SFltb_zero_inv Zq HZ) as [-> | (mz & ez & ->)];
    [discriminate |].
  destruct (SFltb_zero_inv S HS) as [-> | (ms & es & ->)];
    [destruct T as [? | [|] | | [|] ? ?]; discriminate |].
  destruct (SFltb_finite_inv _ _ _ HST) as [-> | (mt & et & ->)].
  - (* infinitely many trials: the quotient is zero *)
    split; [left; reflexivity | reflexivity].
  - destruct (SFdiv_below_one ms es mt et HvS HvT HST HvP) as [Hshape Hle].
    split; [exact Hshape |].
    destruct Hshape as [Hp | (mp & ep & Hp)]; rewrite Hp in *.
    + reflexivity.
    + apply SFmul_finite_nonneg, SFsqrt_nonneg, SFdiv_finite_nonneg,
        SFmul_finite_nonneg, SFsub_one_nonneg; assumption.
Qed.

Lemma SFsub_zero_le (s : bool) (x : spec_float) :
  sf_nonneg x = true ->
  SFleb (SF64sub (S754_zero s) x) (S754_zero s) = true.
Proof.
  destruct x as [sx | sx | | sx mx ex]; cbn [sf_nonneg]; try discriminate;
    destruct s, sx; try discriminate; reflexivity.
Qed.

Lemma SFadd_zero_ge (s : bool) (x : spec_float) :
  sf_nonneg x = true ->
  SFleb (S754_zero s) (SF64add (S754_zero s) x) = true.
Proof.
  destruct x as [sx | sx | | sx mx ex]; cbn [sf_nonneg]; try discriminate;
    destruct s, sx; try discriminate; reflexivity.
Qed.

Local Open Scope float_scope.

(** For [0 < s < t] and a positive finite [z], the interval
    [p -/+ z * sqrt(p * (1 - p) / t)] around [p = s / t] contains [p]. *)
Lemma interval_brackets (s t z : float) :
  (0 <? s) = true -> (s <? t) = true ->
  (0 <? z) = true -> (z <? infinity) = true ->
  let p := s / t in
  let x := z * sqrt (p * (1 - p) / t) in
  (p - x <=? p) = true /\ (p <=? p + x) = true.
Proof.
  intros Hs Hst Hz Hzinf p x.
  rewrite ltb_spec in Hs, Hst, Hz, Hzinf.
  change (Prim2SF 0) with (S754_zero false) in Hs, Hz.
  change (Prim2SF infinity) with (S754_infinity false) in Hzinf.
  pose proof (Prim2SF_valid p) as HvP. unfold p in HvP.
  rewrite div_spec in HvP.
  destruct (half_width_nonneg _ _ _ (Prim2SF_valid s) (Prim2SF_valid t) HvP
              Hs Hst Hz Hzinf) as [Hshape Hx].
  assert (Prim2SF x =
          SF64mul (Prim2SF z)
            (SF64sqrt
               (SF64div
                  (SF64mul (SF64div (Prim2SF s) (Prim2SF t))
                     (SF64sub sf_one (SF64div (Prim2SF s) (Prim2SF t))))
                  (Prim2SF t)))) as Ex.
  { unfold x, p.
    now rewrite mul_spec, sqrt_spec, div_spec, mul_spec, sub_spec, div_spec,
      Prim2SF_one. }
  rewrite <- Ex in Hx. rewrite <- div_spec in Hshape. fold p in Hshape.
  pose proof (Prim2SF_valid p) as Hvp.
  pose proof (Prim2SF_valid x) as Hvx.
  pose proof (Prim2SF_valid (p - x)) as Hvsub.
  pose proof (Prim2SF_valid (p + x)) as Hvadd.
  rewrite !leb_spec, sub_spec, add_spec. rewrite sub_spec in Hvsub.
  rewrite add_spec in Hvadd.
  destruct Hshape as [Hp | (mp & ep & Hp)]; rewrite Hp in *.
  - split; [now apply SFsub_zero_le | now apply SFadd_zero_ge].
  - split; [now apply SFsub_le_left | now apply SFadd_ge_left].
Qed.

End Interval.

(** ** The confidence interval *)

Section ConfidenceInterval.

Local Open Scope float_scope.

Variable norm_ppf : float -> float.

Lemma positive_trials (s t : float) :
  (0 <? s) = true -> (s <? t) = true -> (t =? 0) = false.
Proof.
  rewrite !ltb_spec, eqb_spec, Prim2SF_zero. intros Hs Hst.
  destruct (SFltb_zero_inv _ Hs) as [Es | (ms & es & Es)]; rewrite Es in Hst.
  - destruct (Prim2SF t) as [? | [|] | | [|] ? ?]; discriminate.
  - destruct (SFltb_finite_inv _ _ _ Hst) as [-> | (mt & et & ->)];
      reflexivity.
Qed.

(** C7: for [0 < successes < trials] and the default confidence 0.95, where
    the normal quantile [norm.ppf] gives a positive finite number, the call
    returns a pair [(lower, upper)] with
    [lower <= successes / trials <= upper]. *)
Theorem confidence_interval_brackets (successes trials : float) :
  (0 <? successes) = true ->
  (successes <? trials) = true ->
  (0 <? norm_ppf (1 - (1 - default_confidence) / 2)) = true ->
  (norm_ppf (1 - (1 - default_confidence) / 2) <? infinity) = true ->
  exists lower upper : float,
    confidence_interval_proportion norm_ppf successes trials default_confidence
      = Ok (lower, upper) /\
    (lower <=? successes / trials) = true /\
    (successes / trials <=? upper) = true.
Proof.
  intros Hs Hst Hz Hzinf.
  unfold confidence_interval_proportion, py_truediv.
  rewrite (positive_trials _ _ Hs Hst).
  change (2 =? 0) with false. cbn [bind].
  do 2 eexists. split; [reflexivity |].
  exact (interval_brackets successes trials _ Hs Hst Hz Hzinf).
Qed.

End ConfidenceInterval.

Lemma confidence_interval_brackets_witness :
  exists lower upper : float,
    confidence_interval_proportion (fun _ => 1.959963984540054%float)
      7 10 default_confidence = Ok (lower, upper) /\
    PrimFloat.leb lower (7 / 10) = true /\
    PrimFloat.leb (7 / 10) upper = true.
Proof.
  apply (confidence_interval_brackets (fun _ => 1.959963984540054%float) 7 10);
    reflexivity.
Defined.

Example confidence_interval_7_of_10 :
  confidence_interval_proportion (fun _ => 1.959963984540054%float)
    7 10 default_confidence
  = Ok (0.4159742349106746%float, 0.9840257650893254%float).
Proof. vm_compute. reflexivity. Qed.

(** * Further properties *)

(** ** The threshold scan, continued *)

Section ScanMore.

Local Open Scope float_scope.

Lemma np_where_from_app (i : nat) (a b : list bool) :
  np_where_from i (a ++ b) =
  (np_where_from i a ++ np_where_from (i + List.length a) b)%list.
Proof.
  revert i. induction a as [| x a IH]; intros i; cbn [app List.length].
  - now rewrite Nat.add_0_r.
  - cbn [np_where_from]. rewrite IH, Nat.add_succ_r.
    now destruct x.
Qed.

Lemma np_where_from_ge (i : nat) (mask : list bool) (p : nat) :
  In p (np_where_from i mask) -> (i <= p)%nat.
Proof.
  revert i. induction mask as [| b mask IH]; intros i; cbn; [tauto |].
  destruct b; cbn; intros H.
  - destruct H as [<- | H]; [lia | apply IH in H; lia].
  - apply IH in H; lia.
Qed.

Lemma Ok_inj {A : Type} (x y : A) : Ok x = Ok y -> x = y.
Proof. congruence. Qed.

Lemma calculate_lifetime_ok_range (capacity : list float) (threshold : float)
    (i : Z) :
  calculate_lifetime capacity threshold = Ok i ->
  (0 <= i < Z.of_nat (List.length capacity))%Z.
Proof.
  destruct capacity as [| c0 rest]; [discriminate |].
  rewrite calculate_lifetime_unfold.
  destruct (np_where _) as [| p others] eqn:E; intros H;
    apply Ok_inj in H; subst i.
  - change (List.length (c0 :: rest)) with (S (List.length rest)). lia.
  - destruct (np_where_from_head _ _ _ _ E) as (j & -> & Hj & _).
    assert (j < List.length (np_less (c0 :: rest) (threshold * c0)))%nat
      as Hlen by (apply nth_error_Some; congruence).
    unfold np_less in Hlen. rewrite length_map in Hlen. lia.
Qed.

(** X1: once a capacity sequence contains an element below the target,
    what is observed afterwards does not change the lifetime: appending
    further observations leaves the result as it is. *)
Theorem calculate_lifetime_prefix_stable
    (capacity later : list float) (threshold c0 : float) :
  np_first capacity = Ok c0 ->
  (exists c, In c capacity /\ (c <? threshold * c0) = true) ->
  calculate_lifetime (capacity ++ later) threshold =
  calculate_lifetime capacity threshold.
Proof.
  intros Hfirst (c & Hin & Hc).
  destruct (np_first_cons _ _ Hfirst) as [rest ->].
  change ((c0 :: rest) ++ later)%list with (c0 :: (rest ++ later))%list.
  rewrite !calculate_lifetime_unfold.
  change (c0 :: (rest ++ later))%list with ((c0 :: rest) ++ later)%list.
  unfold np_where, np_less. rewrite map_app, np_where_from_app.
  fold (np_less (c0 :: rest) (threshold * c0)).
  destruct (np_where_from 0 (np_less (c0 :: rest) (threshold * c0)))
    as [| i others] eqn:E; [| reflexivity].
  exfalso.
  pose proof (in_map (fun x => x <? threshold * c0) _ _ Hin) as Hmask.
  apply (np_where_from_empty _ _ E) in Hmask. congruence.
Qed.

Lemma calculate_lifetime_prefix_stable_witness :
  calculate_lifetime ([2.0; 1.9; 1.5] ++ [1.4; 2.5]) 0.8 =
  calculate_lifetime [2.0; 1.9; 1.5] 0.8.
Proof.
  apply (calculate_lifetime_prefix_stable [2.0; 1.9; 1.5] [1.4; 2.5] 0.8 2.0).
  - reflexivity.
  - exists 1.5. split; [cbn; tauto | reflexivity].
Defined.

(** X2: without any element below the target, more observations never
    shorten the lifetime: the result on the longer sequence is at least
    [len(capacity) - 1], and at least [len(capacity)] when something was
    appended. *)
Theorem calculate_lifetime_censored_grows
    (capacity later : list float) (threshold c0 : float) (i : Z) :
  np_first capacity = Ok c0 ->
  (forall c, In c capacity -> (c <? threshold * c0) = false) ->
  calculate_lifetime (capacity ++ later) threshold = Ok i ->
  (Z.of_nat (List.length capacity) - 1 <= i)%Z /\
  (later <> [] -> (Z.of_nat (List.length capacity) <= i)%Z).
Proof.
  intros Hfirst Hnone.
  destruct (np_first_cons _ _ Hfirst) as [rest ->].
  change ((c0 :: rest) ++ later)%list with (c0 :: (rest ++ later))%list.
  rewrite calculate_lifetime_unfold.
  change (c0 :: (rest ++ later))%list with ((c0 :: rest) ++ later)%list.
  unfold np_where, np_less. rewrite map_app, np_where_from_app.
  rewrite (np_where_from_all_false 0 (map _ (c0 :: rest))).
  2: { intros b Hb. apply in_map_iff in Hb. destruct Hb as (c & <- & Hc).
       now apply Hnone. }
  cbn [app]. rewrite length_map, Nat.add_0_l.
  destruct (np_where_from _ _) as [| p others] eqn:E; intros H;
    apply Ok_inj in H; subst i.
  - change (c0 :: rest ++ later)%list with ((c0 :: rest) ++ later)%list.
    rewrite length_app. split; [lia |]. intros Hne.
    destruct later as [| l0 later]; [congruence |].
    change (List.length (l0 :: later)) with (S (List.length later)). lia.
  - assert (List.length (c0 :: rest) <= p)%nat
      by (apply (np_where_from_ge _ (map (fun c => c <? threshold * c0) later));
          rewrite E; now left).
    split; intros; lia.
Qed.

Lemma calculate_lifetime_censored_grows_witness :
  (Z.of_nat (List.length [2.0; 1.9]%float) - 1 <= 3)%Z /\
  ([1.8; 1.5] <> [] -> (Z.of_nat (List.length [2.0; 1.9]%float) <= 3)%Z).
Proof.
  apply (calculate_lifetime_censored_grows [2.0; 1.9] [1.8; 1.5] 0.8 2.0 3).
  - reflexivity.
  - intros c [<- | [<- | []]]; reflexivity.
  - reflexivity.
Defined.

Lemma calculate_lifetime_zero_length (A : Type) (l : list A) :
  Ok (Z.of_nat (List.length l) - 1)%Z = Ok 0%Z -> List.length l = 1%nat.
Proof. intros H. apply Ok_inj in H. lia. Qed.

(** X3: the lifetime is 0 exactly when the first capacity is itself below
    the target or the sequence has a single element. *)
Theorem calculate_lifetime_zero_iff
    (c0 : float) (rest : list float) (threshold : float) :
  calculate_lifetime (c0 :: rest) threshold = Ok 0%Z <->
  (c0 <? threshold * c0) = true \/ rest = [].
Proof.
  rewrite calculate_lifetime_unfold. unfold np_where, np_less.
  cbn [map np_where_from].
  destruct (c0 <? threshold * c0) eqn:E0.
  - split; [auto | reflexivity].
  - destruct (np_where_from 1 (map (fun c => c <? threshold * c0) rest))
      as [| p others] eqn:E.
    + split.
      * intros H. right. apply calculate_lifetime_zero_length in H.
        destruct rest; [reflexivity | discriminate].
      * intros [H | ->]; [discriminate | reflexivity].
    + assert (1 <= p)%nat as Hp
        by (apply (np_where_from_ge _ (map (fun c => c <? threshold * c0) rest));
            rewrite E; now left).
      split.
      * intros H. apply Ok_inj in H. lia.
      * intros [H | ->]; [discriminate | discriminate].
Qed.

End ScanMore.

(** ** Loading one record *)

Section LoadMore.

Variable loadmat : string -> result (dict ndarray2).

Local Open Scope string_scope.

(** X4: on a file that was read, a missing or zero-width required field is
    an error, checked in the order cycle, capacity: without ["cycle"] the
    call raises [KeyError "cycle"] whatever else the file holds, with a
    ["cycle"] array of no column it raises [IndexError], and with a good
    ["cycle"] but no ["capacity"] it raises [KeyError "capacity"]. *)
Theorem load_battery_data_required_fields
    (file_path : string) (data : dict ndarray2) :
  loadmat file_path = Ok data ->
  (dict_find data "cycle" = None ->
   load_battery_data loadmat file_path = Raise (KeyError "cycle")) /\
  (dict_find data "cycle" = Some [] ->
   load_battery_data loadmat file_path = Raise IndexError) /\
  (forall cyc others,
      dict_find data "cycle" = Some (cyc :: others) ->
      (dict_find data "capacity" = None ->
       load_battery_data loadmat file_path = Raise (KeyError "capacity")) /\
      (dict_find data "capacity" = Some [] ->
       load_battery_data loadmat file_path = Raise IndexError)).
Proof.
  intros Hload. unfold load_battery_data, dict_getitem. rewrite Hload.
  cbn [bind]. split; [| split].
  - intros ->. reflexivity.
  - intros ->. reflexivity.
  - intros cyc others Hcyc. rewrite Hcyc. cbn [bind column0].
    split; intros ->; reflexivity.
Qed.

(** X5: on a file with both required fields the call returns their first
    columns as they are.  Without ["impedance"] the impedance returned is
    all zeros and as long as the capacity; with it, its first column is
    returned, of whatever length: nothing compares the three lengths. *)
Theorem load_battery_data_columns
    (file_path : string) (data : dict ndarray2)
    (cyc cap : list float) (cycs caps : ndarray2) :
  loadmat file_path = Ok data ->
  dict_find data "cycle" = Some (cyc :: cycs) ->
  dict_find data "capacity" = Some (cap :: caps) ->
  (dict_find data "impedance" = None ->
   load_battery_data loadmat file_path =
   Ok {| cycle := cyc; capacity := cap;
         impedance := repeat 0%float (List.length cap) |}) /\
  (forall imp imps,
      dict_find data "impedance" = Some (imp :: imps) ->
      load_battery_data loadmat file_path =
      Ok {| cycle := cyc; capacity := cap; impedance := imp |}) /\
  (dict_find data "impedance" = Some [] ->
   load_battery_data loadmat file_path = Raise IndexError).
Proof.
  intros Hload Hcyc Hcap.
  unfold load_battery_data, dict_getitem, dict_contains.
  rewrite Hload. cbn [bind]. rewrite Hcyc. cbn [bind column0].
  rewrite Hcap. cbn [bind column0]. repeat split.
  - intros ->. reflexivity.
  - intros imp imps ->. reflexivity.
  - intros ->. reflexivity.
Qed.

(** X6: [load_battery_data] raises exactly what the reader raises when the
    file cannot be read, and otherwise only [KeyError] or [IndexError]. *)
Theorem load_battery_data_errors (file_path : string) (e : exn) :
  load_battery_data loadmat file_path = Raise e ->
  loadmat file_path = Raise e \/
  (exists data, loadmat file_path = Ok data) /\
  (e = KeyError "cycle" \/ e = KeyError "capacity" \/
   e = KeyError "impedance" \/ e = IndexError).
Proof.
  unfold load_battery_data.
  destruct (loadmat file_path) as [data | e0]; cbn [bind];
    [| intros [= ->]; now left].
  intros H. right. split; [eauto |].
  assert (forall key e',
             (a <- dict_getitem data key ;; column0 a) = Raise e' ->
             e' = KeyError key \/ e' = IndexError) as Hfield.
  { intros key e' Hf. destruct (dict_getitem data key) as [a | e1] eqn:E1;
      cbn [bind] in Hf.
    - right. exact (column0_raises _ _ Hf).
    - left. injection Hf as <-. exact (dict_getitem_raises _ _ _ E1). }
  destruct (a <- dict_getitem data "cycle" ;; column0 a)
    as [cycles | e1] eqn:E1; cbn [bind] in H.
  2: { injection H as <-. destruct (Hfield _ _ E1); auto. }
  destruct (a <- dict_getitem data "capacity" ;; column0 a)
    as [cap | e2] eqn:E2; cbn [bind] in H.
  2: { injection H as <-. destruct (Hfield _ _ E2); auto. }
  destruct (dict_contains data "impedance").
  - destruct (a <- dict_getitem data "impedance" ;; column0 a)
      as [imp | e3] eqn:E3; cbn [bind] in H; [discriminate |].
    injection H as <-. destruct (Hfield _ _ E3); auto.
  - cbn [bind] in H. discriminate.
Qed.

End LoadMore.

Section LoadWitnesses.

Local Open Scope string_scope.

Lemma load_battery_data_required_fields_witness :
  load_battery_data
    (fun _ => Ok [("capacity", [[2.0; 1.9]%float])]) "B0001.mat"
  = Raise (KeyError "cycle").
Proof.
  exact (proj1 (load_battery_data_required_fields
                  (fun _ => Ok [("capacity", [[2.0; 1.9]%float])])
                  "B0001.mat" _ eq_refl) eq_refl).
Defined.

Lemma load_battery_data_columns_witness :
  load_battery_data
    (fun _ => Ok [("cycle", [[1; 2]%float]); ("capacity", [[2.0; 1.9]%float])])
    "B0001.mat"
  = Ok {| cycle := [1; 2]%float; capacity := [2.0; 1.9]%float;
          impedance := [0; 0]%float |}.
Proof.
  exact (proj1 (load_battery_data_columns
                  (fun _ => Ok [("cycle", [[1; 2]%float]);
                                ("capacity", [[2.0; 1.9]%float])])
                  "B0001.mat" _ _ _ _ _ eq_refl eq_refl eq_refl) eq_refl).
Defined.

Lemma load_battery_data_errors_witness :
  (fun _ : string => @Raise (dict ndarray2) FileNotFoundError) "B0009.mat"
    = Raise FileNotFoundError \/
  (exists data,
      (fun _ : string => @Raise (dict ndarray2) FileNotFoundError) "B0009.mat"
      = Ok data) /\
  (FileNotFoundError = KeyError "cycle" \/
   FileNotFoundError = KeyError "capacity" \/
   FileNotFoundError = KeyError "impedance" \/
   FileNotFoundError = IndexError).
Proof.
  exact (load_battery_data_errors (fun _ => Raise FileNotFoundError)
           "B0009.mat" FileNotFoundError eq_refl).
Defined.

End LoadWitnesses.

(** ** The batch extraction, continued *)

Section BatchMore.

Lemma gather_app (a b : list (result (Z * float))) :
  gather (a ++ b) =
  (la <- gather a ;; lb <- gather b ;; Ok (la ++ lb)%list).
Proof.
  induction a as [| o a IH]; cbn [app gather bind].
  - destruct (gather b); reflexivity.
  - destruct o as [x | e].
    + rewrite IH. destruct (gather a); cbn [bind]; [| reflexivity].
      destruct (gather b); reflexivity.
    + destruct (exn_is_file_not_found e); [exact IH | reflexivity].
Qed.

Lemma gather_length (outcomes : list (result (Z * float)))
    (l : list (Z * float)) :
  gather outcomes = Ok l -> (List.length l <= List.length outcomes)%nat.
Proof.
  revert l. induction outcomes as [| o outcomes IH]; intros l; cbn [gather].
  - intros H. apply Ok_inj in H. subst l. apply le_n.
  - destruct o as [x | e].
    + destruct (gather outcomes) as [l' |]; cbn [bind]; [| discriminate].
      intros H. apply Ok_inj in H. subst l. cbn [List.length].
      specialize (IH l' eq_refl). lia.
    + destruct (exn_is_file_not_found e); [| discriminate].
      intros H. specialize (IH l H). cbn [List.length]. lia.
Qed.

Lemma gather_In (outcomes : list (result (Z * float)))
    (l : list (Z * float)) (x : Z * float) :
  gather outcomes = Ok l -> In x l -> In (Ok x) outcomes.
Proof.
  revert l. induction outcomes as [| o outcomes IH]; intros l; cbn [gather].
  - intros H. apply Ok_inj in H. subst l. intros [].
  - destruct o as [y | e].
    + destruct (gather outcomes) as [l' |]; cbn [bind]; [| discriminate].
      intros H. apply Ok_inj in H. subst l. intros [-> | Hin].
      * now left.
      * right. eauto.
    + destruct (exn_is_file_not_found e); [| discriminate].
      intros H Hin. right. eauto.
Qed.

Lemma gather_all_missing (outcomes : list (result (Z * float))) :
  (forall o, In o outcomes -> o = Raise FileNotFoundError) ->
  gather outcomes = Ok [].
Proof.
  induction outcomes as [| o outcomes IH]; intros H; [reflexivity |].
  rewrite (H o (or_introl eq_refl)). cbn [gather exn_is_file_not_found].
  apply IH. intros o' Ho'. apply H. now right.
Qed.

Lemma py_range_length (start stop : Z) :
  List.length (py_range start stop) = Z.to_nat (stop - start).
Proof. unfold py_range. now rewrite length_map, length_seq. Qed.

Variable loadmat : string -> result (dict ndarray2).
Variable folder_path : string.

Local Abbreviation outcome := (unit_outcome loadmat folder_path).

(** X7: the two sequences returned are parallel: they have the same
    length, which is at most the number of units asked for. *)
Theorem extract_lifetimes_parallel
    (num_batteries : Z) (lts : list Z) (caps : list float) :
  extract_lifetimes_from_folder loadmat folder_path num_batteries
    = Ok (lts, caps) ->
  List.length lts = List.length caps /\
  Z.of_nat (List.length lts) <= Z.max num_batteries 0.
Proof.
  rewrite extract_gather.
  destruct (gather _) as [l |] eqn:E; cbn [bind]; [| discriminate].
  intros H. apply Ok_inj in H. injection H as <- <-.
  rewrite !length_map. split; [reflexivity |].
  apply gather_length in E. rewrite length_map, py_range_length in E. lia.
Qed.

(** X8: every pair returned is the lifetime and the initial capacity of a
    unit between 1 and [num_batteries] whose record was read: the lifetime
    is a position in that record's capacity and the initial capacity is
    its first element. *)
Theorem extract_lifetimes_sound
    (num_batteries : Z) (lts : list Z) (caps : list float)
    (n : nat) (lifetime : Z) (c0 : float) :
  extract_lifetimes_from_folder loadmat folder_path num_batteries
    = Ok (lts, caps) ->
  nth_error lts n = Some lifetime ->
  nth_error caps n = Some c0 ->
  exists (i : Z) (data : battery_data),
    1 <= i <= num_batteries /\
    load_battery_data loadmat (file_path_of folder_path i) = Ok data /\
    calculate_lifetime (capacity data) default_threshold = Ok lifetime /\
    np_first (capacity data) = Ok c0 /\
    0 <= lifetime < Z.of_nat (List.length (capacity data)).
Proof.
  rewrite extract_gather.
  destruct (gather _) as [l |] eqn:E; cbn [bind]; [| discriminate].
  intros H. apply Ok_inj in H. injection H as <- <-.
  rewrite !nth_error_map.
  destruct (nth_error l n) as [[lt c] |] eqn:En; cbn; [| discriminate].
  intros [= ->] [= ->].
  apply nth_error_In in En. apply (gather_In _ _ _ E) in En.
  apply in_map_iff in En. destruct En as (i & Hout & Hin).
  apply in_py_range in Hin. unfold unit_outcome in Hout.
  destruct (load_battery_data loadmat (file_path_of folder_path i))
    as [data |] eqn:Eload; cbn [bind] in Hout; [| discriminate].
  destruct (calculate_lifetime (capacity data) default_threshold)
    as [lt |] eqn:Elt; cbn [bind] in Hout; [| discriminate].
  destruct (np_first (capacity data)) as [c |] eqn:Ec; cbn [bind] in Hout;
    [| discriminate].
  apply Ok_inj in Hout. injection Hout as -> ->.
  exists i, data. split; [lia |]. split; [exact Eload |].
  split; [exact Elt |]. split; [exact Ec |].
  exact (calculate_lifetime_ok_range _ _ _ Elt).
Qed.

(** X9: asking for no unit, or for a negative number of units, reads no
    file and returns two empty sequences; so does a folder in which none
    of the files exists. *)
Theorem extract_lifetimes_nothing (num_batteries : Z) :
  num_batteries <= 0 \/
  (forall i, 1 <= i <= num_batteries ->
             loadmat (file_path_of folder_path i) = Raise FileNotFoundError) ->
  extract_lifetimes_from_folder loadmat folder_path num_batteries
    = Ok ([], []).
Proof.
  intros H. rewrite extract_gather.
  assert (gather (map outcome (py_range 1 (num_batteries + 1))) = Ok [])
    as ->; [| reflexivity].
  destruct H as [Hn | Hmissing].
  - unfold py_range. replace (Z.to_nat (num_batteries + 1 - 1)) with 0%nat
      by lia. reflexivity.
  - apply gather_all_missing. intros o Ho. apply in_map_iff in Ho.
    destruct Ho as (i & <- & Hi). apply in_py_range in Hi.
    apply outcome_file_not_found, Hmissing. lia.
Qed.

End BatchMore.

Section BatchCompose.

Local Open Scope string_scope.

Lemma extract_lifetimes_parallel_witness :
  List.length [2; 2; 1] = List.length [2.0; 1.8; 2.0]%float /\
  Z.of_nat (List.length [2; 2; 1]) <= Z.max 5 0.
Proof.
  exact (extract_lifetimes_parallel example_store "nasa" 5 _ _ eq_refl).
Defined.

Lemma extract_lifetimes_sound_witness :
  exists (i : Z) (data : battery_data),
    1 <= i <= 5 /\
    load_battery_data example_store (file_path_of "nasa" i) = Ok data /\
    calculate_lifetime (capacity data) default_threshold = Ok 1 /\
    np_first (capacity data) = Ok 2.0%float /\
    0 <= 1 < Z.of_nat (List.length (capacity data)).
Proof.
  exact (extract_lifetimes_sound example_store "nasa" 5 _ _ 2 1 2.0%float
           eq_refl eq_refl eq_refl).
Defined.

Lemma extract_lifetimes_nothing_witness :
  extract_lifetimes_from_folder example_store "elsewhere" 3 = Ok ([], []).
Proof.
  apply extract_lifetimes_nothing. right. intros i Hi.
  assert (i = 1 \/ i = 2 \/ i = 3) as [-> | [-> | ->]] by lia; reflexivity.
Defined.

(** X10: the call reads the files of the units 1 to [num_batteries] in the
    folder and nothing else: two stores that agree on these paths give the
    same result. *)
Theorem extract_lifetimes_local
    (loadmat1 loadmat2 : string -> result (dict ndarray2))
    (folder_path : string) (num_batteries : Z) :
  (forall i, 1 <= i <= num_batteries ->
             loadmat1 (file_path_of folder_path i) =
             loadmat2 (file_path_of folder_path i)) ->
  extract_lifetimes_from_folder loadmat1 folder_path num_batteries =
  extract_lifetimes_from_folder loadmat2 folder_path num_batteries.
Proof.
  intros H. rewrite !extract_gather. do 2 f_equal.
  apply map_ext_in. intros i Hi. apply in_py_range in Hi.
  unfold unit_outcome, load_battery_data. rewrite H by lia. reflexivity.
Qed.

Lemma extract_lifetimes_local_witness :
  extract_lifetimes_from_folder example_store "nasa" 2 =
  extract_lifetimes_from_folder
    (fun p => if String.eqb p "nasa/B0004.mat" then Raise IndexError
              else example_store p) "nasa" 2.
Proof.
  apply extract_lifetimes_local. intros i Hi.
  assert (i = 1 \/ i = 2) as [-> | ->] by lia; reflexivity.
Defined.

(** X11: one more unit extends the result of the shorter run: a run that
    failed still fails with the same exception; otherwise the lifetime and
    initial capacity of the new unit are appended when its record is read,
    nothing changes when its file is not found, and any other exception of
    the new unit is raised. *)
Theorem extract_lifetimes_step
    (loadmat : string -> result (dict ndarray2))
    (folder_path : string) (num_batteries : Z) :
  0 <= num_batteries ->
  extract_lifetimes_from_folder loadmat folder_path (num_batteries + 1) =
  match extract_lifetimes_from_folder loadmat folder_path num_batteries with
  | Raise e => Raise e
  | Ok (lts, caps) =>
      match unit_outcome loadmat folder_path (num_batteries + 1) with
      | Ok (lifetime, c0) => Ok (lts ++ [lifetime], caps ++ [c0])%list
      | Raise e =>
          if exn_is_file_not_found e then Ok (lts, caps) else Raise e
      end
  end.
Proof.
  intros Hn. rewrite !extract_gather.
  rewrite (py_range_app 1 (num_batteries + 1) (num_batteries + 1 + 1))
    by lia.
  rewrite (py_range_cons (num_batteries + 1)) by lia.
  replace (py_range (num_batteries + 1 + 1) (num_batteries + 1 + 1))
    with (@nil Z) by (unfold py_range; now rewrite Z.sub_diag).
  rewrite map_app, gather_app. cbn [map gather].
  destruct (gather (map _ (py_range 1 (num_batteries + 1)))) as [l | e];
    cbn [bind]; [| reflexivity].
  destruct (unit_outcome loadmat folder_path (num_batteries + 1))
    as [[lifetime c0] | e]; cbn [bind].
  - now rewrite !map_app.
  - destruct (exn_is_file_not_found e); cbn [bind]; [| reflexivity].
    now rewrite app_nil_r.
Qed.

Lemma extract_lifetimes_step_witness :
  extract_lifetimes_from_folder example_store "nasa" (3 + 1) =
  Ok ([2; 2] ++ [1], [2.0; 1.8]%float ++ [2.0%float])%list.
Proof.
  exact (extract_lifetimes_step example_store "nasa" 3 ltac:(lia)).
Defined.

End BatchCompose.

(** ** File names *)

Section FileNames.

Local Open Scope string_scope.

Lemma string_length_append (s1 s2 : string) :
  String.length (s1 ++ s2) = (String.length s1 + String.length s2)%nat.
Proof. induction s1 as [| c s1 IH]; cbn; [reflexivity | now rewrite IH]. Qed.

Lemma string_append_assoc (s1 s2 s3 : string) :
  (s1 ++ s2) ++ s3 = s1 ++ (s2 ++ s3).
Proof. induction s1 as [| c s1 IH]; cbn; [reflexivity | now rewrite IH]. Qed.

Lemma append_suffix_inj (x y z : string) : x ++ z = y ++ z -> x = y.
Proof.
  revert y. induction x as [| c x IH]; intros [| d y] H; cbn in H.
  - reflexivity.
  - apply (f_equal String.length) in H. cbn in H.
    rewrite string_length_append in H. lia.
  - apply (f_equal String.length) in H. cbn in H.
    rewrite string_length_append in H. lia.
  - injection H as -> H. f_equal. now apply IH.
Qed.

Lemma zeros_app_inj (a b : nat) (c d : ascii) (s t : string) :
  c <> "0"%char -> d <> "0"%char ->
  zeros a ++ String c s = zeros b ++ String d t ->
  String c s = String d t.
Proof.
  intros Hc Hd. revert b. induction a as [| a IH]; intros [| b] H; cbn in H.
  - exact H.
  - injection H as -> _. congruence.
  - injection H as <- _. congruence.
  - injection H as H. now apply IH in H.
Qed.

Lemma to_uint_head (p : positive) :
  match Pos.to_uint p with
  | Decimal.Nil | Decimal.D0 _ => False
  | _ => True
  end.
Proof.
  pose proof (DecimalPos.Unsigned.to_uint_nonnil p) as Hnil.
  pose proof (DecimalPos.Unsigned.to_uint_nonzero p) as Hzero.
  assert (Decimal.unorm (Pos.to_uint p) = Pos.to_uint p) as Hnorm.
  { rewrite <- DecimalPos.Unsigned.to_of, DecimalPos.Unsigned.of_to. reflexivity. }
  destruct (Pos.to_uint p) as [| d | d | d | d | d | d | d | d | d | d];
    try exact I; [congruence |].
  rewrite DecimalFacts.unorm_D0 in Hnorm. unfold Decimal.unorm in Hnorm.
  destruct (Decimal.nzhead d) eqn:E;
    try (rewrite <- E in Hnorm; now apply DecimalFacts.nzhead_nonzero in Hnorm).
  apply Hzero. congruence.
Qed.

(** [str(i)] of a positive [i] starts with a digit that is not 0. *)
Lemma py_str_head (i : Z) :
  1 <= i ->
  exists c s, py_str i = String c s /\
              c <> "0"%char /\ c <> "+"%char /\ c <> "-"%char.
Proof.
  intros Hi. destruct i as [| p | p]; try lia. unfold py_str.
  cbn [Z.to_int NilZero.string_of_int]. unfold NilZero.string_of_uint.
  pose proof (to_uint_head p) as H.
  destruct (Pos.to_uint p); try contradiction;
    cbn [NilEmpty.string_of_uint]; do 2 eexists;
    (split; [reflexivity |]); repeat split; discriminate.
Qed.

Lemma py_str_inj (i j : Z) : py_str i = py_str j -> i = j.
Proof.
  unfold py_str. intros H. apply DecimalZ.to_int_inj.
  assert (forall z, Z.to_int z <> Decimal.Pos Decimal.Nil /\
                    Z.to_int z <> Decimal.Neg Decimal.Nil) as Hnil.
  { intros [| p | p]; cbn [Z.to_int]; split; try discriminate;
      intros [= Hp]; now apply (DecimalPos.Unsigned.to_uint_nonnil p). }
  apply (f_equal NilZero.int_of_string) in H.
  rewrite !NilZero.isi in H by apply Hnil. congruence.
Qed.

Lemma zfill_positive (i : Z) (width : nat) :
  1 <= i ->
  zfill (py_str i) width = zeros (width - String.length (py_str i)) ++ py_str i.
Proof.
  intros Hi. destruct (py_str_head i Hi) as (c & s & E & _ & Hplus & Hminus).
  unfold zfill. rewrite E.
  apply Ascii.eqb_neq in Hplus, Hminus. now rewrite Hplus, Hminus.
Qed.

(** X12: different units have different files: for positive indices the
    file name determines the index, also beyond four digits. *)
Theorem file_name_of_inj (i j : Z) :
  1 <= i -> 1 <= j -> file_name_of i = file_name_of j -> i = j.
Proof.
  intros Hi Hj H. unfold file_name_of in H. injection H as H.
  rewrite !zfill_positive in H by assumption.
  rewrite !string_append_assoc in H.
  apply py_str_inj.
  destruct (py_str_head i Hi) as (c & s & Ei & Hc & _).
  destruct (py_str_head j Hj) as (d & t & Ej & Hd & _).
  rewrite Ei, Ej in *. cbn [append] in H.
  apply zeros_app_inj in H; [| assumption | assumption].
  injection H as -> H. f_equal. now apply append_suffix_inj in H.
Qed.

Lemma file_name_of_inj_witness : 7 = 7.
Proof.
  exact (file_name_of_inj 7 7 ltac:(lia) ltac:(lia) eq_refl).
Defined.

End FileNames.

Section FileNameShape.

Local Open Scope string_scope.

Lemma zeros_length (n : nat) : String.length (zeros n) = n.
Proof. induction n as [| n IH]; cbn; [reflexivity | now rewrite IH]. Qed.

(** X13: the file name of a positive index is ["B"], the decimal digits of
    the index padded with zeros on the left to four characters, and
    [".mat"]; an index of more than four digits is not cut. *)
Theorem file_name_of_shape (i : Z) :
  1 <= i ->
  file_name_of i =
  "B" ++ zeros (4 - String.length (py_str i)) ++ py_str i ++ ".mat" /\
  String.length (file_name_of i) =
  (5 + Nat.max 4 (String.length (py_str i)))%nat.
Proof.
  intros Hi. unfold file_name_of. rewrite (zfill_positive i 4 Hi).
  rewrite string_append_assoc. split; [reflexivity |].
  cbn [append String.length].
  rewrite !string_length_append, zeros_length. cbn [String.length]. lia.
Qed.

Lemma file_name_of_shape_witness :
  file_name_of 12345 = "B12345.mat" /\
  String.length (file_name_of 12345) = 10%nat.
Proof.
  exact (file_name_of_shape 12345 ltac:(lia)).
Defined.

End FileNameShape.

(** ** The test and the interval: when they raise *)

Section AnalyzerErrors.

Local Open Scope float_scope.

Variable norm_ppf : float -> float.
Variable norm_cdf : float -> float.

(** X14: [hypothesis_test_proportion] raises exactly when [trials] is zero,
    and then [ZeroDivisionError]; with any other [trials], whatever [p0],
    [alpha] and [alternative] are, it returns a result. *)
Theorem hypothesis_test_raises_iff
    (successes trials p0 alpha : float) (alternative : string) (e : exn) :
  hypothesis_test_proportion norm_cdf successes trials p0 alpha alternative
    = Raise e
  <-> (trials =? 0) = true /\ e = ZeroDivisionError.
Proof.
  unfold hypothesis_test_proportion, py_truediv.
  destruct (trials =? 0); cbn [bind].
  - split; [intros [= <-]; auto | intros [_ ->]; reflexivity].
  - split; [| intros [H _]; discriminate].
    destruct (String.eqb alternative "greater");
      [| destruct (String.eqb alternative "less")]; discriminate.
Qed.

(** X15: [confidence_interval_proportion] raises exactly when [trials] is
    zero, and then [ZeroDivisionError]; with any other [trials] it returns
    a pair, for every [successes] and [confidence]. *)
Theorem confidence_interval_raises_iff
    (successes trials confidence : float) (e : exn) :
  confidence_interval_proportion norm_ppf successes trials confidence
    = Raise e
  <-> (trials =? 0) = true /\ e = ZeroDivisionError.
Proof.
  unfold confidence_interval_proportion, py_truediv.
  change (2 =? 0) with false.
  destruct (trials =? 0); cbn [bind].
  - split; [intros [= <-]; auto | intros [_ ->]; reflexivity].
  - split; [discriminate | intros [H _]; discriminate].
Qed.

(** X16: every [alternative] other than ["greater"] and ["less"] selects
    the two-sided test: two such strings give the same result, with the
    p-value [2 * (1 - norm.cdf(abs(z)))]. *)
Theorem hypothesis_test_other_alternative
    (successes trials p0 alpha : float) (alt1 alt2 : string) :
  alt1 <> "greater"%string -> alt1 <> "less"%string ->
  alt2 <> "greater"%string -> alt2 <> "less"%string ->
  hypothesis_test_proportion norm_cdf successes trials p0 alpha alt1 =
  hypothesis_test_proportion norm_cdf successes trials p0 alpha alt2 /\
  forall r,
    hypothesis_test_proportion norm_cdf successes trials p0 alpha alt1 = Ok r ->
    p_value r = 2 * (1 - norm_cdf (abs (z_statistic r))).
Proof.
  intros H1 H2 H3 H4. apply String.eqb_neq in H1, H2, H3, H4.
  unfold hypothesis_test_proportion. rewrite H1, H2, H3, H4.
  split; [reflexivity |].
  intros r. destruct (py_truediv successes trials); cbn [bind];
    [| discriminate].
  destruct (py_truediv (p0 * (1 - p0)) trials); cbn [bind]; [| discriminate].
  intros H. apply Ok_inj in H. subst r. reflexivity.
Qed.

(** X17: in every result the decision is [p_value < alpha], the z-statistic
    is [(successes / trials - p0) / sqrt(p0 * (1 - p0) / trials)] whatever
    the alternative, and a rejection is only reported on a p-value and a
    level that are numbers (not NaN). *)
Theorem hypothesis_test_decision
    (successes trials p0 alpha : float) (alternative : string)
    (r : test_result) :
  hypothesis_test_proportion norm_cdf successes trials p0 alpha alternative
    = Ok r ->
  reject_H0 r = (p_value r <? alpha) /\
  z_statistic r = (successes / trials - p0) / sqrt (p0 * (1 - p0) / trials) /\
  (reject_H0 r = true -> is_nan (p_value r) = false /\ is_nan alpha = false).
Proof.
  unfold hypothesis_test_proportion, py_truediv.
  destruct (trials =? 0); cbn [bind]; [discriminate |].
  assert (forall p z,
             Ok {| z_statistic := z; p_value := p; reject_H0 := p <? alpha |}
             = Ok r ->
             reject_H0 r = (p_value r <? alpha) /\ z_statistic r = z /\
             (reject_H0 r = true ->
              is_nan (p_value r) = false /\ is_nan alpha = false)) as Hgen.
  { intros p z H. apply Ok_inj in H. subst r. cbn. repeat split.
    - now apply ltb_true_not_nan in H.
    - now apply ltb_true_not_nan in H. }
  destruct (String.eqb alternative "greater");
    [| destruct (String.eqb alternative "less")]; apply Hgen.
Qed.

End AnalyzerErrors.

Section AnalyzerErrorsWitnesses.

Local Open Scope float_scope.

Lemma hypothesis_test_other_alternative_witness :
  hypothesis_test_proportion (fun _ => 0.5) 6 10 0.5 0.05 "Greater" =
  hypothesis_test_proportion (fun _ => 0.5) 6 10 0.5 0.05 "two-sided" /\
  forall r,
    hypothesis_test_proportion (fun _ => 0.5) 6 10 0.5 0.05 "Greater" = Ok r ->
    p_value r = 2 * (1 - (fun _ : float => 0.5) (abs (z_statistic r))).
Proof.
  apply (hypothesis_test_other_alternative (fun _ => 0.5));
    intros H; discriminate.
Defined.

Lemma hypothesis_test_decision_witness :
  true = (0 <? 0.05) /\
  infinity = (6 / 10 - 0) / sqrt (0 * (1 - 0) / 10) /\
  (true = true -> is_nan 0 = false /\ is_nan 0.05 = false).
Proof.
  exact (hypothesis_test_decision (fun _ => 1) 6 10 0 0.05 "greater"
           {| z_statistic := infinity; p_value := 0; reject_H0 := true |}
           eq_refl).
Defined.

End AnalyzerErrorsWitnesses.

(** ** The conjugate update, continued *)

Section BayesianMore.

(** X18: on integers that meet the stated preconditions (positive priors,
    [0 <= successes <= trials]) the posterior parameters are positive, none
    is below its prior, and together they grow by exactly [trials]. *)
Theorem bayesian_update_int_posterior (a b s n : Z) :
  0 < a -> 0 < b -> 0 <= s <= n ->
  exists pa pb : Z,
    bayesian_update a b s n = Ok (pa, pb) /\
    0 < pa /\ 0 < pb /\ a <= pa /\ b <= pb /\ pa + pb = a + b + n.
Proof.
  intros Ha Hb Hs. exists (a + s), (b + n - s).
  split; [reflexivity | lia].
Qed.

Lemma bayesian_update_int_posterior_witness :
  exists pa pb : Z,
    bayesian_update 1 1 7 10 = Ok (pa, pb) /\
    0 < pa /\ 0 < pb /\ 1 <= pa /\ 1 <= pb /\ pa + pb = 1 + 1 + 10.
Proof.
  apply (bayesian_update_int_posterior 1 1 7 10); lia.
Defined.

(** X19: on integers the order of two updates does not matter, and an
    update with no trial returns the prior. *)
Theorem bayesian_update_int_order (a b s n s2 n2 : Z) :
  (p <- bayesian_update a b s n ;; bayesian_update (fst p) (snd p) s2 n2) =
  (p <- bayesian_update a b s2 n2 ;; bayesian_update (fst p) (snd p) s n) /\
  bayesian_update a b 0 0 = Ok (a, b).
Proof.
  unfold bayesian_update. cbn. split; do 2 f_equal; lia.
Qed.

End BayesianMore.

Section BayesianFloat.

Local Open Scope float_scope.

Lemma SFleb_zero_nonneg (x : spec_float) :
  SFleb (S754_zero false) x = true -> sf_nonneg x = true.
Proof.
  unfold SFleb. destruct x as [s | s | | s m e]; cbn [SFcompare sf_nonneg];
    try discriminate; try reflexivity; destruct s; (discriminate || reflexivity).
Qed.

Lemma positive_finite_spec (a : float) :
  (0 <? a) = true -> (a <? infinity) = true ->
  exists m e, Prim2SF a = S754_finite false m e.
Proof.
  rewrite !ltb_spec, Prim2SF_zero, Prim2SF_infinity. intros H0 Hinf.
  destruct (SFltb_zero_inv _ H0) as [E | E]; [| exact E].
  rewrite E in Hinf. discriminate.
Qed.

(** X20: on floats, with a positive finite prior alpha and non-negative
    successes, rounding never takes the posterior alpha below the prior. *)
Theorem bayesian_update_float_alpha (a b s n : float) :
  (0 <? a) = true -> (a <? infinity) = true -> (0 <=? s) = true ->
  exists pa pb : float,
    bayesian_update a b s n = Ok (pa, pb) /\ (a <=? pa) = true.
Proof.
  intros Ha Hinf Hs. exists (a + s), (b + n - s). split; [reflexivity |].
  destruct (positive_finite_spec a Ha Hinf) as (m & e & Ea).
  rewrite leb_spec, Prim2SF_zero in Hs. apply SFleb_zero_nonneg in Hs.
  pose proof (Prim2SF_valid a) as Hva. pose proof (Prim2SF_valid s) as Hvs.
  pose proof (Prim2SF_valid (a + s)) as Hvsum.
  rewrite leb_spec, add_spec. rewrite add_spec in Hvsum.
  rewrite Ea in *. now apply SFadd_ge_left.
Qed.

Lemma bayesian_update_float_alpha_witness :
  exists pa pb : float,
    bayesian_update 0.01 1 8 10 = Ok (pa, pb) /\ (0.01 <=? pa) = true.
Proof.
  apply (bayesian_update_float_alpha 0.01 1 8 10); reflexivity.
Defined.

End BayesianFloat.

Section BayesianFloatBeta.

Local Open Scope float_scope.

Lemma sf_nonneg_leb_zero (x : spec_float) :
  sf_nonneg x = true -> SFleb (S754_zero false) x = true.
Proof.
  unfold SFleb. destruct x as [s | s | | s m e]; cbn [SFcompare sf_nonneg];
    try discriminate; try reflexivity; destruct s; (discriminate || reflexivity).
Qed.

Lemma SFadd_finite_comm (m1 : positive) (e1 : Z) (m2 : positive) (e2 : Z) :
  SF64add (S754_finite false m1 e1) (S754_finite false m2 e2) =
  SF64add (S754_finite false m2 e2) (S754_finite false m1 e1).
Proof.
  unfold SF64add. cbn [SFadd]. rewrite (Z.min_comm e1 e2). f_equal.
  apply Z.add_comm.
Qed.

(** A difference of positive numbers, the smaller taken from the larger, is
    not negative. *)
Lemma SFsub_nonneg_of_le (mx : positive) (ex : Z) (my : positive) (ey : Z) :
  bounded prec emax mx ex = true -> bounded prec emax my ey = true ->
  (Zpos my * 2 ^ (ey - -1074) <= Zpos mx * 2 ^ (ex - -1074))%Z ->
  sf_nonneg (SF64sub (S754_finite false mx ex) (S754_finite false my ey))
  = true.
Proof.
  intros Hx Hy Hle. unfold SF64sub. cbn [SFsub cond_Zopp].
  destruct (bounded_inv mx ex Hx) as (Hex & _).
  destruct (bounded_inv my ey Hy) as (Hey & _).
  set (ez := Z.min ex ey).
  pose proof (aligned_value mx ex ez ltac:(unfold ez; lia)
                ltac:(unfold ez; lia)) as Hax.
  pose proof (aligned_value my ey ez ltac:(unfold ez; lia)
                ltac:(unfold ez; lia)) as Hay.
  set (ax := Zpos (fst (shl_align mx ex ez))) in *.
  set (ay := Zpos (fst (shl_align my ey ez))) in *.
  assert (ay <= ax)%Z as Hdiff.
  { pose proof (pow2_pos (ez - -1074) ltac:(unfold ez; lia)) as Hpz.
    apply Z.mul_le_mono_pos_r with (2 ^ (ez - -1074))%Z; [exact Hpz |]. lia. }
  destruct (ax - ay)%Z as [| m | m] eqn:E; cbn [binary_normalize];
    [reflexivity | apply binary_round_nonneg | lia].
Qed.

(** X21: on floats, with a positive finite prior beta and
    [0 <= successes <= trials < inf], the posterior beta is never negative
    and never NaN.  It can be zero although the prior is positive:
    a small prior is absorbed when [trials] is added, as for the prior
    0.1 with 1e16 successes in 1e16 trials. *)
Theorem bayesian_update_float_beta :
  (forall a b s n : float,
      (0 <? b) = true -> (b <? infinity) = true ->
      (0 <=? s) = true -> (s <=? n) = true -> (n <? infinity) = true ->
      exists pa pb : float,
        bayesian_update a b s n = Ok (pa, pb) /\ (0 <=? pb) = true) /\
  bayesian_update 1 0.1 1e16 1e16 = Ok (1e16, 0).
Proof.
  split; [| reflexivity].
  intros a b s n Hb Hbinf Hs Hsn Hn.
  exists (a + s), (b + n - s). split; [reflexivity |].
  destruct (positive_finite_spec b Hb Hbinf) as (mb & eb & Eb).
  pose proof (Prim2SF_valid b) as Hvb. pose proof (Prim2SF_valid n) as Hvn.
  pose proof (Prim2SF_valid s) as Hvs.
  pose proof (Prim2SF_valid (b + n)) as Hvx.
  rewrite leb_spec, Prim2SF_zero in Hs. rewrite leb_spec in Hsn.
  rewrite ltb_spec, Prim2SF_infinity in Hn.
  rewrite leb_spec, Prim2SF_zero, sub_spec, add_spec.
  rewrite add_spec in Hvx. rewrite Eb in *.
  apply sf_nonneg_leb_zero.
  destruct (Prim2SF n) as [sn | sn | | sn mn en];
    try discriminate; [| destruct sn; [| discriminate];
                         destruct (Prim2SF s) as [? | [|] | | [|] ? ?];
                         discriminate |].
  - (* no trial *)
    destruct (Prim2SF s) as [ss | ss | | ss ms es]; try discriminate;
      [reflexivity | destruct ss; discriminate | destruct ss; discriminate].
  - assert (sn = false) as ->
      by (destruct sn; [| reflexivity];
          destruct (Prim2SF s) as [? | [|] | | [|] ? ?]; discriminate).
    rewrite SFadd_finite_comm in Hvx |- *.
    pose proof (SFadd_ge_left mn en (S754_finite false mb eb) Hvn eq_refl
                  Hvb Hvx) as Hnx.
    destruct (SF64add (S754_finite false mn en) (S754_finite false mb eb))
      as [sx | sx | | sx mx ex] eqn:Ex; try discriminate.
    + (* the sum overflowed *)
      destruct sx; [discriminate |].
      destruct (Prim2SF s) as [ss | ss | | ss ms es]; try discriminate;
        try reflexivity; destruct ss; discriminate.
    + destruct sx; [discriminate |].
      destruct (Prim2SF s) as [ss | ss | | ss ms es]; try discriminate.
      * reflexivity.
      * destruct ss; discriminate.
      * destruct ss; [discriminate |].
        pose proof (SFleb_finite_pos _ _ _ _ Hvs Hvn Hsn).
        pose proof (SFleb_finite_pos _ _ _ _ Hvn Hvx Hnx).
        apply SFsub_nonneg_of_le; try assumption. lia.
Qed.

End BayesianFloatBeta.

Lemma bayesian_update_float_beta_witness :
  exists pa pb : float,
    bayesian_update 0.5%float 0.5%float 8%float 10%float = Ok (pa, pb) /\
    PrimFloat.leb 0%float pb = true.
Proof.
  apply (proj1 bayesian_update_float_beta); reflexivity.
Defined.

(** ** The interval at the extremes *)

Section DegenerateInterval.

Lemma div_eucl_mul (q m : Z) : (0 < m)%Z -> Z.div_eucl (q * m) m = (q, 0%Z).
Proof.
  intros Hm. pose proof (Z.div_mul q m ltac:(lia)) as Hd.
  pose proof (Z.mod_mul q m ltac:(lia)) as Hr.
  unfold Z.div, Z.modulo in Hd, Hr.
  destruct (Z.div_eucl (q * m) m) as [q' r']. congruence.
Qed.

(** A finite non-zero number divided by itself is 1. *)
Lemma SFdiv_self (s : bool) (m : positive) (e : Z) :
  SF64div (S754_finite s m e) (S754_finite s m e) = sf_one.
Proof.
  unfold SF64div. cbn [SFdiv]. unfold SFdiv_core_binary.
  rewrite !Z.sub_diag.
  change (Z.min (fexp prec emax 0) 0) with (-53)%Z.
  change (0 - -53)%Z with 53%Z. cbv iota.
  rewrite Z.shiftl_mul_pow2 by lia. rewrite Z.mul_comm.
  rewrite (div_eucl_mul (2 ^ 53) (Zpos m)) by lia.
  assert (new_location (Zpos m) 0 = loc_Exact) as ->
    by (unfold new_location, new_location_even, new_location_odd;
        destruct (Z.even (Zpos m)); reflexivity).
  destruct s; reflexivity.
Qed.

Local Open Scope float_scope.

Lemma is_finite_spec (z : float) :
  is_finite z = true ->
  (exists s, Prim2SF z = S754_zero s) \/
  (exists s m e, Prim2SF z = S754_finite s m e).
Proof.
  unfold is_finite, is_nan, is_infinity.
  rewrite !eqb_spec, abs_spec, Prim2SF_infinity.
  destruct (Prim2SF z) as [s | s | | s m e]; eauto;
    [destruct s; discriminate | discriminate].
Qed.

Variable norm_ppf : float -> float.

(** X22: at the extremes the interval is a single point.  With no success
    and [trials > 0] it is [(0, 0)]; with as many successes as trials
    ([0 < trials < inf]) it is [(1, 1)]; in both cases for every
    confidence whose quantile is a finite number. *)
Theorem confidence_interval_degenerate (trials confidence : float) :
  (0 <? trials) = true ->
  is_finite (norm_ppf (1 - (1 - confidence) / 2)) = true ->
  confidence_interval_proportion norm_ppf 0 trials confidence = Ok (0, 0) /\
  ((trials <? infinity) = true ->
   confidence_interval_proportion norm_ppf trials trials confidence
   = Ok (1, 1)).
Proof.
  intros Ht Hz. unfold confidence_interval_proportion, py_truediv.
  rewrite (positive_not_zero _ Ht). change (2 =? 0) with false. cbn [bind].
  set (z := norm_ppf (1 - (1 - confidence) / 2)) in *.
  assert (forall p x : float,
             (exists sx, Prim2SF x = S754_zero sx) ->
             Prim2SF p = S754_zero false \/ Prim2SF p = sf_one ->
             p - x = p /\ p + x = p) as Hpoint.
  { intros p x [sx Ex] Hp.
    split; apply Prim2SF_inj; rewrite ?sub_spec, ?add_spec, Ex;
      destruct Hp as [-> | ->]; destruct sx; reflexivity. }
  assert (forall v : float,
             (exists sv, Prim2SF v = S754_zero sv) ->
             exists sx, Prim2SF (z * sqrt v) = S754_zero sx) as Hwidth.
  { intros v [sv Ev]. rewrite mul_spec, sqrt_spec, Ev.
    destruct (is_finite_spec z Hz) as [[sz ->] | (sz & mz & ez & ->)];
      eexists; reflexivity. }
  pose proof Ht as Ht'. rewrite ltb_spec, Prim2SF_zero in Ht'.
  split.
  - assert (0 / trials = 0) as ->.
    { apply Prim2SF_inj. rewrite div_spec, Prim2SF_zero.
      destruct (SFltb_zero_inv _ Ht') as [-> | (m & e & ->)]; reflexivity. }
    change (0 * (1 - 0)) with 0.
    assert (0 / trials = 0) as ->.
    { apply Prim2SF_inj. rewrite div_spec, Prim2SF_zero.
      destruct (SFltb_zero_inv _ Ht') as [-> | (m & e & ->)]; reflexivity. }
    destruct (Hpoint 0 (z * sqrt 0)) as [-> ->];
      [apply Hwidth; exists false; reflexivity | left; reflexivity |].
    reflexivity.
  - intros Hinf. rewrite ltb_spec, Prim2SF_infinity in Hinf.
    destruct (SFltb_zero_inv _ Ht') as [E | (m & e & E)];
      [rewrite E in Hinf; discriminate |].
    assert (trials / trials = 1) as ->.
    { apply Prim2SF_inj. rewrite div_spec, E, SFdiv_self. reflexivity. }
    change (1 * (1 - 1)) with 0.
    assert (0 / trials = 0) as ->.
    { apply Prim2SF_inj. rewrite div_spec, Prim2SF_zero, E. reflexivity. }
    destruct (Hpoint 1 (z * sqrt 0)) as [-> ->];
      [apply Hwidth; exists false; reflexivity | right; reflexivity |].
    reflexivity.
Qed.

End DegenerateInterval.

Lemma confidence_interval_degenerate_witness :
  confidence_interval_proportion (fun _ => 1.959963984540054%float)
    0 10 0.95 = Ok (0%float, 0%float) /\
  (PrimFloat.ltb 10 infinity = true ->
   confidence_interval_proportion (fun _ => 1.959963984540054%float)
     10 10 0.95 = Ok (1%float, 1%float)).
Proof.
  apply (confidence_interval_degenerate (fun _ => 1.959963984540054%float));
    reflexivity.
Defined.

(** ** A record without observations *)

Section EmptyRecord.

Local Open Scope string_scope.

Variable loadmat : string -> result (dict ndarray2).
Variable folder_path : string.

(** X24: a record that is found but holds no observation is not passed
    over: when the capacity column of unit [i] is empty and no earlier unit
    failed (other than by a missing file), the whole extraction raises
    [IndexError] and returns no lifetimes at all. *)
Theorem extract_lifetimes_empty_record
    (num_batteries i : Z) (data : dict ndarray2)
    (cyc : list float) (cycs caps : ndarray2) :
  1 <= i <= num_batteries ->
  loadmat (file_path_of folder_path i) = Ok data ->
  dict_find data "cycle" = Some (cyc :: cycs) ->
  dict_find data "capacity" = Some ([] :: caps) ->
  (dict_find data "impedance" = None \/
   exists imp imps, dict_find data "impedance" = Some (imp :: imps)) ->
  (forall j e, 1 <= j < i -> unit_outcome loadmat folder_path j = Raise e ->
               e = FileNotFoundError) ->
  extract_lifetimes_from_folder loadmat folder_path num_batteries
  = Raise IndexError.
Proof.
  intros Hi Hload Hcyc Hcap Himp Hbefore.
  assert (unit_outcome loadmat folder_path i = Raise IndexError) as Hout.
  { unfold unit_outcome, load_battery_data, dict_getitem, dict_contains.
    rewrite Hload. cbn [bind]. rewrite Hcyc, Hcap. cbn [bind column0].
    destruct Himp as [-> | (imp & imps & ->)]; reflexivity. }
  rewrite extract_gather.
  rewrite (py_range_app 1 i (num_batteries + 1)),
    (py_range_cons i (num_batteries + 1)) by lia.
  rewrite map_app. cbn [map]. rewrite Hout, gather_first_failure;
    [reflexivity | | discriminate].
  intros e' He'. apply in_map_iff in He'. destruct He' as (j & Hj & Hin).
  apply in_py_range in Hin. now apply (Hbefore j).
Qed.

End EmptyRecord.

Lemma extract_lifetimes_empty_record_witness :
  extract_lifetimes_from_folder
    (fun p => if String.eqb p "nasa/B0003.mat"
              then Ok [("cycle", [[]]); ("capacity", [[]])]%string
              else example_store p) "nasa"%string 5
  = Raise IndexError.
Proof.
  apply (extract_lifetimes_empty_record _ "nasa"%string 5 3
           [("cycle", [[]]); ("capacity", [[]])]%string [] [] []).
  - lia.
  - reflexivity.
  - reflexivity.
  - reflexivity.
  - left; reflexivity.
  - intros j e Hj. assert (j = 1 \/ j = 2) as [-> | ->] by lia; discriminate.
Defined.

(** ** The Weibull fit, continued *)

(** X23: [fit_weibull_distribution] adds no check and no failure of its
    own.  It raises exactly what the library fit raises on the sample with
    the location fixed at 0, returns exactly the shape and scale the
    library found (the location returned is dropped), and so depends on
    the library only through that one call. *)
Theorem fit_weibull_distribution_library
    (fit fit' : list float -> float -> result (float * float * float))
    (data : list float) :
  (forall e, fit_weibull_distribution fit data = Raise e <->
             fit data 0%float = Raise e) /\
  (forall r, fit_weibull_distribution fit data = Ok r <->
             exists loc, fit data 0%float = Ok (k r, loc, lambda r)) /\
  (fit data 0%float = fit' data 0%float ->
   fit_weibull_distribution fit data = fit_weibull_distribution fit' data).
Proof.
  unfold fit_weibull_distribution.
  repeat split.
  - destruct (fit data 0%float) as [[[shape loc] scale] | e0]; cbn [bind];
      [discriminate | congruence].
  - intros H. now rewrite H.
  - destruct (fit data 0%float) as [[[shape loc] scale] | e0]; cbn [bind];
      [| discriminate].
    intros H. apply Ok_inj in H. subst r. exists loc. reflexivity.
  - intros [loc H]. rewrite H. cbn [bind]. now destruct r.
  - intros H. now rewrite H.
Qed.
